(** * Firmware-version discovery and fingerprint matching

  A shallow embedding of [selfdrive/car/fw_versions.py]: the address
  planner and the query loop of [get_fw_versions], the CarFw encoding of
  its result, and the elimination algorithm of [match_fw_to_car]. *)

From Stdlib Require Import ZArith List Floats.
From stdpp Require Import base decidable option list strings gmap.

Local Open Scope Z_scope.
#[local] Set Warnings "-clear-no-such-hyp".

(** ** Python dictionaries

  A Python [dict] keeps its keys unique and iterates in insertion order;
  assigning to a key that is present replaces the value where it stands.
  Both matter here (the planner and the query loop iterate dictionaries),
  so a dictionary is an association list in iteration order. *)

Module PyDict.
Section dict.
Context {K V : Type} `{EqDecision K}.

Definition dict : Type := list (K * V).

Definition keys (d : dict) : list K := d.*1.
Definition values (d : dict) : list V := d.*2.

(** [d.get(k)] *)
Fixpoint get (d : dict) (k : K) : option V :=
  match d with
  | [] => None
  | (k', v) :: d' => if decide (k = k') then Some v else get d' k
  end.

(** [d[k] = v] *)
Fixpoint set (d : dict) (k : K) (v : V) : dict :=
  match d with
  | [] => [(k, v)]
  | (k', v') :: d' =>
      if decide (k = k') then (k, v) :: d' else (k', v') :: set d' k v
  end.

(** [d.update(e)]: the items of [e] are assigned in [e]'s order. *)
Definition update (d e : dict) : dict :=
  fold_left (fun acc kv => set acc kv.1 kv.2) e d.

(** The invariant of a dictionary object. *)
Definition wf (d : dict) : Prop := NoDup (keys d).

Global Instance wf_dec (d : dict) : Decision (wf d).
Proof. unfold wf. apply _. Defined.

End dict.
Global Arguments dict : clear implicits.
End PyDict.

Import PyDict.

(** ** Data model *)

(** Modelled from the spec: the enum [car.CarParams.Ecu] is declared in
    cereal's schema, which is not part of this module.  The members below
    are the ones [fw_versions.py] names; [other n] stands for every further
    member of the enum, by its ordinal. *)
Inductive Ecu : Type :=
  | eps | esp | fwdRadar | fwdCamera | engine | unknown
  | vsa | electricBrakeBooster
  | other (n : N).

Global Instance Ecu_eq_dec : EqDecision Ecu.
Proof. solve_decision. Defined.

(** A byte string, one [Z] in [0, 256) per byte. *)
Definition bytes : Type := list Z.

(** [(addr, sub_addr)]: the key of an observation. *)
Definition addr_t : Type := Z * option Z.

(** [(brand, addr, sub_addr)]: an address tagged with its vendor. *)
Definition baddr_t : Type := string * Z * option Z.

(** [(ecu_type, addr, sub_addr)]: the key of a fingerprint entry. *)
Definition ecu_key : Type := Ecu * Z * option Z.

(** A model's fingerprint, the table of one brand, and the brand-indexed
    table that [get_attr_from_cars('FW_VERSIONS', combine_brands=False)]
    returns. *)
Definition fingerprint : Type := dict ecu_key (list bytes).
Definition fw_table : Type := dict string fingerprint.
Definition brand_table : Type := dict string fw_table.

(** Modelled from the spec: the struct [car.CarParams.CarFw] is declared in
    cereal's schema, which is not part of this module.  Its fields are the
    four that [get_fw_versions] assigns; §3 of the specification gives the
    address 32 bits and the sub-address 8 bits, both unsigned.  A new
    message holds the default of every field. *)
Record CarFw : Type := mkCarFw {
  ecu : Ecu;
  fwVersion : bytes;
  address : Z;
  subAddress : Z
}.

Definition new_message : CarFw :=
  {| ecu := eps; fwVersion := []; address := 0; subAddress := 0 |}.

Definition is_uint (w : Z) (v : Z) : bool := (0 <=? v) && (v <? 2 ^ w).

(** The five members of [selfdrive.car.toyota.values.CAR] that the matcher
    names.  Their values live outside this module, so the matcher takes
    them as a parameter. *)
Record ToyotaCAR : Type := {
  RAV4 : string;
  COROLLA : string;
  HIGHLANDER : string;
  COROLLA_TSS2 : string;
  CHR : string
}.

(** One entry of the request catalog: brand, requests, responses. *)
Definition request_entry : Type := string * list bytes * list bytes.

(** ** The request catalog *)

(** The constants of [panda.python.uds] that the catalog is built from.
    Their values live outside this module, so the catalog takes them as a
    parameter; each is a byte, the two data identifiers are 16 bits wide. *)
Record UdsConstants : Type := {
  TESTER_PRESENT : Z;
  DIAGNOSTIC_SESSION_CONTROL : Z;
  READ_DATA_BY_IDENTIFIER : Z;
  DEFAULT : Z;
  EXTENDED_DIAGNOSTIC : Z;
  APPLICATION_SOFTWARE_IDENTIFICATION : Z;
  VEHICLE_MANUFACTURER_SPARE_PART_NUMBER : Z
}.

Module Catalog.
Section catalog.
Variable uds : UdsConstants.

(** [struct.pack("!H", val)]: the two bytes of [val], high byte first. *)
Definition p16 (val : Z) : bytes :=
  [Z.land (Z.shiftr val 8) 0xff; Z.land val 0xff].

Definition TESTER_PRESENT_REQUEST : bytes := [TESTER_PRESENT uds; 0x0].
Definition TESTER_PRESENT_RESPONSE : bytes := [TESTER_PRESENT uds + 0x40; 0x0].

Definition SHORT_TESTER_PRESENT_REQUEST : bytes := [TESTER_PRESENT uds].
Definition SHORT_TESTER_PRESENT_RESPONSE : bytes := [TESTER_PRESENT uds + 0x40].

Definition DEFAULT_DIAGNOSTIC_REQUEST : bytes :=
  [DIAGNOSTIC_SESSION_CONTROL uds; DEFAULT uds].
Definition DEFAULT_DIAGNOSTIC_RESPONSE : bytes :=
  [DIAGNOSTIC_SESSION_CONTROL uds + 0x40; DEFAULT uds; 0x0; 0x32; 0x1; 0xf4].

Definition EXTENDED_DIAGNOSTIC_REQUEST : bytes :=
  [DIAGNOSTIC_SESSION_CONTROL uds; EXTENDED_DIAGNOSTIC uds].
Definition EXTENDED_DIAGNOSTIC_RESPONSE : bytes :=
  [DIAGNOSTIC_SESSION_CONTROL uds + 0x40; EXTENDED_DIAGNOSTIC uds;
   0x0; 0x32; 0x1; 0xf4].

Definition UDS_VERSION_REQUEST : bytes :=
  [READ_DATA_BY_IDENTIFIER uds]
  ++ p16 (APPLICATION_SOFTWARE_IDENTIFICATION uds).
Definition UDS_VERSION_RESPONSE : bytes :=
  [READ_DATA_BY_IDENTIFIER uds + 0x40]
  ++ p16 (APPLICATION_SOFTWARE_IDENTIFICATION uds).

Definition HYUNDAI_VERSION_REQUEST_SHORT : bytes :=
  [READ_DATA_BY_IDENTIFIER uds] ++ p16 0xf1a0.
Definition HYUNDAI_VERSION_REQUEST_LONG : bytes :=
  [READ_DATA_BY_IDENTIFIER uds] ++ p16 0xf100.
Definition HYUNDAI_VERSION_REQUEST_MULTI : bytes :=
  [READ_DATA_BY_IDENTIFIER uds]
  ++ p16 (VEHICLE_MANUFACTURER_SPARE_PART_NUMBER uds)
  ++ p16 (APPLICATION_SOFTWARE_IDENTIFICATION uds)
  ++ p16 0xf100
  ++ p16 0xf1a0.
Definition HYUNDAI_VERSION_RESPONSE : bytes :=
  [READ_DATA_BY_IDENTIFIER uds + 0x40].

Definition TOYOTA_VERSION_REQUEST : bytes := [0x1a; 0x88; 0x01].
Definition TOYOTA_VERSION_RESPONSE : bytes := [0x5a; 0x88; 0x01].

Definition OBD_VERSION_REQUEST : bytes := [0x09; 0x04].
Definition OBD_VERSION_RESPONSE : bytes := [0x49; 0x04].

Definition SUBARU_VERSION_REQUEST : bytes := [0x22; 0xf1; 0x82].
Definition SUBARU_VERSION_RESPONSE : bytes := [0x62; 0xf1; 0x82].

Definition REQUESTS : list request_entry :=
  [ ("hyundai"%string,
     [HYUNDAI_VERSION_REQUEST_SHORT],
     [HYUNDAI_VERSION_RESPONSE]);
    ("hyundai"%string,
     [HYUNDAI_VERSION_REQUEST_LONG],
     [HYUNDAI_VERSION_RESPONSE]);
    ("hyundai"%string,
     [HYUNDAI_VERSION_REQUEST_MULTI],
     [HYUNDAI_VERSION_RESPONSE]);
    ("honda"%string,
     [UDS_VERSION_REQUEST],
     [UDS_VERSION_RESPONSE]);
    ("toyota"%string,
     [SHORT_TESTER_PRESENT_REQUEST; TOYOTA_VERSION_REQUEST],
     [SHORT_TESTER_PRESENT_RESPONSE; TOYOTA_VERSION_RESPONSE]);
    ("toyota"%string,
     [SHORT_TESTER_PRESENT_REQUEST; OBD_VERSION_REQUEST],
     [SHORT_TESTER_PRESENT_RESPONSE; OBD_VERSION_RESPONSE]);
    ("toyota"%string,
     [TESTER_PRESENT_REQUEST; DEFAULT_DIAGNOSTIC_REQUEST;
      EXTENDED_DIAGNOSTIC_REQUEST; UDS_VERSION_REQUEST],
     [TESTER_PRESENT_RESPONSE; DEFAULT_DIAGNOSTIC_RESPONSE;
      EXTENDED_DIAGNOSTIC_RESPONSE; UDS_VERSION_RESPONSE]);
    ("subaru"%string,
     [TESTER_PRESENT_REQUEST; SUBARU_VERSION_REQUEST],
     [TESTER_PRESENT_RESPONSE; SUBARU_VERSION_RESPONSE]) ].
End catalog.
End Catalog.

(** ** The fingerprint matcher: [match_fw_to_car] *)

Section matcher.
Variable TOYOTA : ToyotaCAR.
(** The module-level table [FW_VERSIONS] of [selfdrive.car.fingerprints]. *)
Variable FW_VERSIONS : fw_table.

Definition ESSENTIAL_ECUS : list Ecu :=
  [engine; eps; esp; fwdRadar; fwdCamera; vsa; electricBrakeBooster].

(** [sub_addr = fw.subAddress if fw.subAddress != 0 else None] *)
Definition decode_sub_addr (fw : CarFw) : option Z :=
  if decide (subAddress fw ≠ 0) then Some (subAddress fw) else None.

(** The first loop: [fw_versions_dict[(addr, sub_addr)] = fw.fwVersion]. *)
Definition build_fw_versions_dict (fw_versions : list CarFw) : dict addr_t bytes :=
  fold_left
    (fun d fw => set d (address fw, decode_sub_addr fw) (fwVersion fw))
    fw_versions [].

(** [found_version not in expected_versions]: [None] equals no byte
    string. *)
Definition not_in_expected (found_version : option bytes)
    (expected_versions : list bytes) : bool :=
  match found_version with
  | None => true
  | Some v => bool_decide (v ∉ expected_versions)
  end.

(** The body of the inner loop for one fingerprint entry: [true] when it
    reaches [invalid.append(candidate); break], [false] when it goes on
    to the next entry (by [continue] or by falling through). *)
Definition entry_invalid (fw_versions_dict : dict addr_t bytes)
    (candidate : string) (entry : ecu_key * list bytes) : bool :=
  let '((ecu_type, a, s), expected_versions) := entry in
  let addr := (a, s) in
  let found_version := get fw_versions_dict addr in
  if bool_decide (ecu_type = esp)
     && bool_decide (candidate ∈ [RAV4 TOYOTA; COROLLA TOYOTA; HIGHLANDER TOYOTA])
     && bool_decide (found_version = None)
  then false
  else if bool_decide (ecu_type = engine)
     && bool_decide (candidate ∈ [COROLLA_TSS2 TOYOTA; CHR TOYOTA])
     && bool_decide (found_version = None)
  then false
  else if bool_decide (ecu_type ∉ ESSENTIAL_ECUS)
     && bool_decide (found_version = None)
  then false
  else not_in_expected found_version expected_versions.

(** The inner loop over [fws.items()], stopping at the first [break]. *)
Fixpoint fws_invalid (fw_versions_dict : dict addr_t bytes)
    (candidate : string) (fws : fingerprint) : bool :=
  match fws with
  | [] => false
  | entry :: rest =>
      if entry_invalid fw_versions_dict candidate entry then true
      else fws_invalid fw_versions_dict candidate rest
  end.

(** The outer loop over [candidates.items()], building [invalid]. *)
Fixpoint collect_invalid (fw_versions_dict : dict addr_t bytes)
    (candidates : fw_table) (invalid : list string) : list string :=
  match candidates with
  | [] => invalid
  | (candidate, fws) :: rest =>
      collect_invalid fw_versions_dict rest
        (if fws_invalid fw_versions_dict candidate fws
         then invalid ++ [candidate] else invalid)
  end.

(** The allow-list exceptions, as the two guards of the loop state them. *)
Definition allow_listed (candidate : string) (ecu_type : Ecu) : bool :=
  bool_decide (ecu_type = esp ∧
               candidate ∈ [RAV4 TOYOTA; COROLLA TOYOTA; HIGHLANDER TOYOTA])
  || bool_decide (ecu_type = engine ∧
                  candidate ∈ [COROLLA_TSS2 TOYOTA; CHR TOYOTA]).

(** Whether some leniency rule lets a missing observation pass: an
    allow-list exception, or the type is not an essential one. *)
Definition tolerates_missing (candidate : string) (ecu_type : Ecu) : bool :=
  allow_listed candidate ecu_type || bool_decide (ecu_type ∉ ESSENTIAL_ECUS).

Definition match_fw_to_car (fw_versions : list CarFw) : gset string :=
  let candidates := FW_VERSIONS in
  let invalid := [] in
  let fw_versions_dict := build_fw_versions_dict fw_versions in
  let invalid := collect_invalid fw_versions_dict candidates invalid in
  list_to_set (keys candidates) ∖ list_to_set invalid.
End matcher.

(** ** The address planner of [get_fw_versions] *)

(** The tuples that [get_fw_versions] uses with [ecu_types]: it stores under
    the pair [(addr, sub_addr)] and tests membership of the triple
    [a = (brand, addr, sub_addr)].  Python compares tuples of different
    lengths as unequal, which the two constructors reproduce. *)
Inductive tuple_key : Type :=
  | Pair (addr : Z) (sub_addr : option Z)
  | Triple (brand : string) (addr : Z) (sub_addr : option Z).

Global Instance tuple_key_eq_dec : EqDecision tuple_key.
Proof. solve_decision. Defined.

Record plan_state : Type := mkPlan {
  ecu_types : dict tuple_key Ecu;
  addrs : list (list baddr_t);
  parallel_addrs : list baddr_t
}.

(** The body of the innermost planner loop, for one key of a fingerprint. *)
Definition plan_key (brand : string) (st : plan_state) (k : ecu_key) : plan_state :=
  let '(ecu_type, addr, sub_addr) := k in
  let a := (brand, addr, sub_addr) in
  let ecu_types' :=
    if bool_decide (Triple brand addr sub_addr ∉ keys (ecu_types st))
    then set (ecu_types st) (Pair addr sub_addr) ecu_type
    else ecu_types st in
  match sub_addr with
  | None =>
      if bool_decide (a ∉ parallel_addrs st)
      then mkPlan ecu_types' (addrs st) (parallel_addrs st ++ [a])
      else mkPlan ecu_types' (addrs st) (parallel_addrs st)
  | Some _ =>
      if bool_decide ([a] ∉ addrs st)
      then mkPlan ecu_types' (addrs st ++ [[a]]) (parallel_addrs st)
      else mkPlan ecu_types' (addrs st) (parallel_addrs st)
  end.

(** [for c in brand_versions.values(): for ... in c.keys()] *)
Definition plan_brand (st : plan_state) (b : string * fw_table) : plan_state :=
  let '(brand, brand_versions) := b in
  fold_left
    (fun st (c : fingerprint) => fold_left (plan_key brand) (keys c) st)
    (values brand_versions) st.

(** [versions.update(extra)] when [extra] is given. *)
Definition merge_extra (versions : brand_table) (extra : option brand_table)
    : brand_table :=
  match extra with
  | Some e => update versions e
  | None => versions
  end.

(** The planner: the three loops, then [addrs.insert(0, parallel_addrs)].
    The result is [ecu_types] and the plan, parallel group first. *)
Definition planner (versions : brand_table)
    : dict tuple_key Ecu * list (list baddr_t) :=
  let st := fold_left plan_brand versions (mkPlan [] [] []) in
  (ecu_types st, parallel_addrs st :: addrs st).

(** The fingerprint keys of a table, each with its brand, in the order in
    which the three planner loops visit them. *)
Definition table_keys (versions : brand_table) : list (string * ecu_key) :=
  bv ← versions;
  c ← values bv.2;
  k ← keys (c : fingerprint);
  [(bv.1, k)].

(** [(brand, addr, sub_addr)] of a visited key, and its [(addr, sub_addr)]. *)
Definition tagged_addr (bk : string * ecu_key) : baddr_t :=
  (bk.1, bk.2.1.2, bk.2.2).
Definition untagged (a : baddr_t) : addr_t := (a.1.2, a.2).

Definition table_addrs (versions : brand_table) : list baddr_t :=
  tagged_addr <$> table_keys versions.

(** A dictionary keyed by pairs only: what [ecu_types] is at every point of
    the planner, so that its membership test of a triple never succeeds. *)
Definition pairs_only (d : dict tuple_key Ecu) : Prop :=
  ∀ brand addr sub_addr, Triple brand addr sub_addr ∉ keys d.

(** The ECU types that the visited keys give to the pair [addr], in visiting
    order: the first is the first writer's, the last the last writer's. *)
Definition types_of (l : list (string * ecu_key)) (addr : addr_t) : list Ecu :=
  omap (fun bk : string * ecu_key =>
          if decide ((bk.2.1.2, bk.2.2) = addr) then Some bk.2.1.1 else None) l.

(** The plan groups that hold the pair [addr], under whatever brand. *)
Definition groups_with (plan : list (list baddr_t)) (addr : addr_t)
    : list (list baddr_t) :=
  filter (fun g => addr ∈ untagged <$> g) plan.

(** The plan groups that hold the tagged address [a]. *)
Definition groups_of (plan : list (list baddr_t)) (a : baddr_t)
    : list (list baddr_t) :=
  filter (fun g => a ∈ g) plan.

(** The partition of untagged pairs: every pair of the table is in exactly
    one plan group, once in the parallel group when it has no sub-address,
    and alone in its group otherwise. *)
Definition pairs_partitioned (table : brand_table)
    (plan : list (list baddr_t)) : Prop :=
  ∀ addr : addr_t, addr ∈ untagged <$> table_addrs table →
    length (groups_with plan addr) = 1%nat
    ∧ (addr.2 = None →
       length (filter (fun x => x = addr) (untagged <$> default [] (head plan)))
       = 1%nat)
    ∧ (addr.2 ≠ None →
       ∀ g, g ∈ plan → addr ∈ untagged <$> g → length g = 1%nat).

(** The planner loops as one loop over [table_keys]. *)
Definition plan_step (st : plan_state) (bk : string * ecu_key) : plan_state :=
  plan_key bk.1 st bk.2.

(** ** The query loop of [get_fw_versions] *)

(** [chunks(l, n)]: the slices [l[i:i + n]] for [i] in [range(0, len(l), n)]. *)
Definition chunks {A : Type} (l : list A) (n : nat) : list (list A) :=
  (fun j => take n (drop (j * n) l)) <$> seq 0 ((length l + n - 1) / n)%nat.

(** [[(a, s) for (b, a, s) in addr_chunk if b in (brand, 'any')]] *)
Definition brand_addrs (brand : string) (addr_chunk : list baddr_t) : list addr_t :=
  omap (fun '(b, a, s) =>
          if bool_decide (b ∈ [brand; "any"%string]) then Some (a, s) else None)
       addr_chunk.

(** ** Building the CarFw list *)

Inductive build_error : Type :=
  | KeyError (addr : addr_t)
  | OutOfRange (addr : addr_t).

(** The body of the last loop of [get_fw_versions].  [ecu_types[addr]]
    raises on a key that the planner did not record, and the assignment of
    an integer field raises on a value outside the field's range. *)
Definition make_car_fw (ecu_types : dict tuple_key Ecu)
    (item : addr_t * bytes) : build_error + CarFw :=
  let '(addr, version) := item in
  let f := new_message in
  match get ecu_types (Pair addr.1 addr.2) with
  | None => inl (KeyError addr)
  | Some e =>
      let f := {| ecu := e; fwVersion := fwVersion f;
                  address := address f; subAddress := subAddress f |} in
      let f := {| ecu := ecu f; fwVersion := version;
                  address := address f; subAddress := subAddress f |} in
      if is_uint 32 addr.1 then
        let f := {| ecu := ecu f; fwVersion := fwVersion f;
                    address := addr.1; subAddress := subAddress f |} in
        match addr.2 with
        | Some sub_addr =>
            if is_uint 8 sub_addr then
              inr {| ecu := ecu f; fwVersion := fwVersion f;
                     address := address f; subAddress := sub_addr |}
            else inl (OutOfRange addr)
        | None => inr f
        end
      else inl (OutOfRange addr)
  end.

Fixpoint build_car_fw (ecu_types : dict tuple_key Ecu)
    (items : dict addr_t bytes) : build_error + list CarFw :=
  match items with
  | [] => inr []
  | item :: rest =>
      match make_car_fw ecu_types item with
      | inl err => inl err
      | inr f =>
          match build_car_fw ecu_types rest with
          | inl err => inl err
          | inr car_fw => inr (f :: car_fw)
          end
      end
  end.

Section query_loop.
(** The state of the bus and of everything behind it. *)
Context {World : Type}.
(** What the transport raises. *)
Context {Exn : Type}.

(** The catalog that the loop iterates: [Catalog.REQUESTS] at the values of
    the [uds] constants. *)
Variable REQUESTS : list request_entry.

(** The transport: [IsoTpParallelQuery(sendcan, logcan, bus, addrs,
    request, response, debug=debug).get_data(t)], which returns a
    dictionary or raises. *)
Variable get_data :
  World → list addr_t → list bytes → list bytes → float →
  World * (Exn + dict addr_t bytes).

(** One invocation of the transport: the index of the plan group being
    processed, the arguments, and the outcome. *)
Record call : Type := mkCall {
  call_group : nat;
  call_addrs : list addr_t;
  call_request : list bytes;
  call_response : list bytes;
  call_timeout : float;
  call_result : Exn + dict addr_t bytes
}.

Record query_state : Type := mkQuery {
  world : World;
  fw_versions : dict addr_t bytes;
  (** what [cloudlog.warning] was called for, in order *)
  warnings : list Exn;
  (** the invocations of the transport, in order *)
  trace : list call
}.

Variable timeout : float.

(** The body of the innermost loop: the [try] block and its handler. *)
Definition query_request (i : nat) (addr_chunk : list baddr_t)
    (st : query_state) (r : request_entry) : query_state :=
  let '(brand, request, response) := r in
  let addrs := brand_addrs brand addr_chunk in
  match addrs with
  | [] => st
  | _ :: _ =>
      let t := if bool_decide (i = 0%nat)
               then PrimFloat.mul 2%float timeout else timeout in
      let '(w, res) := get_data (world st) addrs request response t in
      let c := mkCall i addrs request response t res in
      match res with
      | inr data =>
          mkQuery w (update (fw_versions st) data) (warnings st)
                  (trace st ++ [c])
      | inl e =>
          mkQuery w (fw_versions st) (warnings st ++ [e]) (trace st ++ [c])
      end
  end.

Definition query_chunk (i : nat) (st : query_state)
    (addr_chunk : list baddr_t) : query_state :=
  fold_left (query_request i addr_chunk) REQUESTS st.

Definition query_group (st : query_state) (ia : nat * list baddr_t)
    : query_state :=
  let '(i, addr) := ia in
  fold_left (query_chunk i) (chunks addr 128) st.

(** [for i, addr in enumerate(addrs)].  The name [addrs] is rebound inside
    the loop, but the iteration runs over the list object of the plan. *)
Definition query_plan (w : World) (plan : list (list baddr_t)) : query_state :=
  fold_left query_group (imap pair plan) (mkQuery w [] [] []).

(** [get_fw_versions(logcan, sendcan, bus, extra, timeout)]: [versions] is
    what [get_attr_from_cars] returns.  The result is the final state of
    the query loop and the returned list, or the error of the last loop. *)
Definition get_fw_versions (w : World) (versions : brand_table)
    (extra : option brand_table) : query_state * (build_error + list CarFw) :=
  let versions := merge_extra versions extra in
  let '(ecu_types, addrs) := planner versions in
  let st := query_plan w addrs in
  (st, build_car_fw ecu_types (fw_versions st)).

(** *** What the loop is expected to do, for the statements below *)

(** The arguments of an invocation, with the index of its plan group. *)
Definition call_args (c : call)
    : nat * list addr_t * list bytes * list bytes * float :=
  (call_group c, call_addrs c, call_request c, call_response c,
   call_timeout c).

(** The invocation that one catalog entry asks for on one chunk of the group
    of index [i]: none when no address of the chunk is of the entry's brand
    or of the brand ["any"]. *)
Definition planned_request (i : nat) (addr_chunk : list baddr_t)
    (r : request_entry)
    : list (nat * list addr_t * list bytes * list bytes * float) :=
  let addrs := brand_addrs r.1.1 addr_chunk in
  if decide (addrs = []) then []
  else [(i, addrs, r.1.2, r.2,
         if decide (i = 0%nat) then PrimFloat.mul 2%float timeout
         else timeout)].

Definition planned_calls (plan : list (list baddr_t))
    : list (nat * list addr_t * list bytes * list bytes * float) :=
  ia ← imap pair plan;
  addr_chunk ← chunks ia.2 128;
  r ← REQUESTS;
  planned_request ia.1 addr_chunk r.

(** The dictionaries that the transport returned, and what it raised. *)
Definition merges (tr : list call) : list (dict addr_t bytes) :=
  omap (fun c =>
          match call_result c with inr data => Some data | inl _ => None end)
       tr.

Definition raised (tr : list call) : list Exn :=
  omap (fun c =>
          match call_result c with inl e => Some e | inr _ => None end)
       tr.

(** The last of the returned dictionaries that holds the key [k]. *)
Definition last_merge_with (k : addr_t) (ds : list (dict addr_t bytes))
    : option (dict addr_t bytes) :=
  last (filter (fun d => k ∈ keys d) ds).

(** [st'] is reached from [st] by the invocations [pl]: they extend the
    trace, what they returned is merged in order, what they raised is
    logged in order. *)
Definition runs (st st' : query_state)
    (pl : list (nat * list addr_t * list bytes * list bytes * float)) : Prop :=
  ∃ tr, trace st' = trace st ++ tr
        ∧ fw_versions st' = fold_left update (merges tr) (fw_versions st)
        ∧ warnings st' = warnings st ++ raised tr
        ∧ call_args <$> tr = pl.
End query_loop.

(** ** Concrete inputs

    Small tables and observations on which the statements below are run. *)

Module Examples.
Local Open Scope string_scope.

Definition TOYOTA : ToyotaCAR :=
  {| RAV4 := "TOYOTA RAV4"; COROLLA := "TOYOTA COROLLA";
     HIGHLANDER := "TOYOTA HIGHLANDER"; COROLLA_TSS2 := "TOYOTA COROLLA TSS2";
     CHR := "TOYOTA C-HR" |}.

(** [b"v1"], [b"v2"], [b"v3"] *)
Definition v1 : bytes := [118; 49].
Definition v2 : bytes := [118; 50].
Definition v3 : bytes := [118; 51].

(** One model that requires the engine ECU at [addr1] to be [v1] or [v2]. *)
Definition one_model (model : string) (addr1 : Z) : fw_table :=
  [(model, [((engine, addr1, None), [v1; v2])])].

(** A table with an empty fingerprint, an entry of a type that is not
    essential, and the two kinds of allow-list exception. *)
Definition FW_VERSIONS : fw_table :=
  [("HONDA CIVIC", [((engine, 0x7e0, None), [v1; v2]);
                    ((other 6, 0x7e1, None), [v1])]);
   ("TOYOTA RAV4", [((esp, 0x7b0, None), [v1])]);
   ("TOYOTA C-HR", [((engine, 0x700, None), [v2])]);
   ("TOYOTA PRIUS", [((esp, 0x7b0, None), [v1])]);
   ("debug", [])].

Definition observed (addr : Z) (sub : Z) (version : bytes) : CarFw :=
  {| ecu := unknown; fwVersion := version; address := addr; subAddress := sub |}.

(** Two brands whose fingerprints share the sub-addressed key
    [(0x7e0, 1)] and the plain key [(0x7e1, None)], under different ECU
    types. *)
Definition versions : brand_table :=
  [("honda", [("HONDA CIVIC", [((engine, 0x7e0, Some 1), [v1]);
                               ((eps, 0x7e1, None), [v2])])]);
   ("toyota", [("TOYOTA PRIUS", [((esp, 0x7e0, Some 1), [v1]);
                                 ((vsa, 0x7e1, None), [v3])])])].

(** Values for the [uds] constants, and the catalog at these values. *)
Definition uds : UdsConstants :=
  {| TESTER_PRESENT := 0x3e; DIAGNOSTIC_SESSION_CONTROL := 0x10;
     READ_DATA_BY_IDENTIFIER := 0x22; DEFAULT := 0x01;
     EXTENDED_DIAGNOSTIC := 0x03;
     APPLICATION_SOFTWARE_IDENTIFICATION := 0xf181;
     VEHICLE_MANUFACTURER_SPARE_PART_NUMBER := 0xf187 |}.

Definition REQUESTS : list request_entry := Catalog.REQUESTS uds.

(** A transport whose state counts the invocations: it raises on the first
    toyota request and otherwise answers, for every address asked, with the
    one-byte version that is the count so far. *)
Definition transport (w : nat) (addrs : list addr_t)
    (request response : list bytes) (t : float)
    : nat * (string + dict addr_t bytes) :=
  (S w,
   if decide (request = [Catalog.SHORT_TESTER_PRESENT_REQUEST uds;
                         Catalog.TOYOTA_VERSION_REQUEST])
   then inl "timeout"
   else inr ((fun k => (k, [Z.of_nat w])) <$> addrs)).

(** The run of [get_fw_versions] on [versions] with this transport. *)
Definition run : query_state * (build_error + list CarFw) :=
  get_fw_versions REQUESTS transport 0.125%float 0%nat versions None.

(** The first invocation of [run], for the parallel group, and the fifth,
    for the first singleton group. *)
Definition call0 : @call string :=
  {| call_group := 0; call_addrs := [(0x7e1, None)];
     call_request := [Catalog.UDS_VERSION_REQUEST uds];
     call_response := [Catalog.UDS_VERSION_RESPONSE uds];
     call_timeout := 0.25%float;
     call_result := inr [((0x7e1, None), [0])] |}.

Definition call4 : @call string :=
  {| call_group := 1; call_addrs := [(0x7e0, Some 1)];
     call_request := [Catalog.UDS_VERSION_REQUEST uds];
     call_response := [Catalog.UDS_VERSION_RESPONSE uds];
     call_timeout := 0.125%float;
     call_result := inr [((0x7e0, Some 1), [4])] |}.

(** The last invocation of [run]: the third toyota entry, on the second
    singleton group. *)
Definition call7 : @call string :=
  {| call_group := 2; call_addrs := [(0x7e0, Some 1)];
     call_request :=
       [Catalog.TESTER_PRESENT_REQUEST uds;
        Catalog.DEFAULT_DIAGNOSTIC_REQUEST uds;
        Catalog.EXTENDED_DIAGNOSTIC_REQUEST uds;
        Catalog.UDS_VERSION_REQUEST uds];
     call_response :=
       [Catalog.TESTER_PRESENT_RESPONSE uds;
        Catalog.DEFAULT_DIAGNOSTIC_RESPONSE uds;
        Catalog.EXTENDED_DIAGNOSTIC_RESPONSE uds;
        Catalog.UDS_VERSION_RESPONSE uds];
     call_timeout := 0.125%float;
     call_result := inr [((0x7e0, Some 1), [7])] |}.

(** The types recorded for two addresses, one of them with sub-address 0. *)
Definition ecu_types : dict tuple_key Ecu :=
  [(Pair 0x7e0 None, engine); (Pair 0x750 (Some 0), eps);
   (Pair 0x750 (Some 0x6d), fwdCamera)].
End Examples.

(** ** Definitions for the further properties *)

(** The matcher on the observation dictionary itself: what
    [match_fw_to_car] computes once it has built [fw_versions_dict]. *)
Definition match_observations (TOYOTA : ToyotaCAR) (FW_VERSIONS : fw_table)
    (fw_versions_dict : dict addr_t bytes) : gset string :=
  list_to_set (keys FW_VERSIONS)
  ∖ list_to_set (collect_invalid TOYOTA fw_versions_dict FW_VERSIONS []).

(** Two dictionaries agree on the keys of the entries of a table. *)
Definition agree_on (FW_VERSIONS : fw_table) (d1 d2 : dict addr_t bytes)
    : Prop :=
  Forall (fun m : string * fingerprint =>
            Forall (fun e : ecu_key * list bytes =>
                      get d1 (e.1.1.2, e.1.2) = get d2 (e.1.1.2, e.1.2))
                   m.2)
         FW_VERSIONS.

(** The same models with the same entries, the entries of each model in
    another order. *)
Definition entries_reordered (FW_VERSIONS FW_VERSIONS' : fw_table) : Prop :=
  Forall2 (fun m m' : string * fingerprint => m.1 = m'.1 ∧ m.2 ≡ₚ m'.2)
          FW_VERSIONS FW_VERSIONS'.

(** The elements of a list in the order of their first occurrence. *)
Fixpoint first_occurrences {A : Type} `{EqDecision A} (l : list A) : list A :=
  match l with
  | [] => []
  | x :: l' => x :: filter (fun y => y ≠ x) (first_occurrences l')
  end.

(** The accumulation that the planner performs on a list of its own:
    append what is not there yet. *)
Definition append_new {A : Type} `{EqDecision A} (acc l : list A) : list A :=
  fold_left (fun acc x => if decide (x ∈ acc) then acc else acc ++ [x]) l acc.

(** An address and a sub-address that fit the fields of a CarFw record. *)
Definition fits_car_fw (k : addr_t) : bool :=
  is_uint 32 k.1 && from_option (is_uint 8) true k.2.

Section transport_assumptions.
Context {World Exn : Type}.
Variable get_data :
  World → list addr_t → list bytes → list bytes → float →
  World * (Exn + dict addr_t bytes).

(** The transport answers only for addresses it was asked about. *)
Definition answers_asked : Prop :=
  ∀ w addrs request response t w' data,
    get_data w addrs request response t = (w', inr data) →
    keys data ⊆ addrs.

(** The transport never returns a version: it raises or returns nothing. *)
Definition never_answers : Prop :=
  ∀ w addrs request response t,
    (get_data w addrs request response t).2 = inr []
    ∨ ∃ e, (get_data w addrs request response t).2 = inl e.
End transport_assumptions.

Module MoreExamples.
Local Open Scope string_scope.

(** Two models that expect different engine firmware at one address. *)
Definition two_models : fw_table :=
  [("A", [((engine, 0x700, None), [[1; 2]])]);
   ("B", [((engine, 0x700, None), [[3; 4]])])].

(** [Examples.FW_VERSIONS] with the first two models exchanged and the
    entries of the Civic exchanged. *)
Definition FW_VERSIONS_swapped : fw_table :=
  [("TOYOTA RAV4", [((esp, 0x7b0, None), [Examples.v1])]);
   ("HONDA CIVIC", [((engine, 0x7e0, None), [Examples.v1; Examples.v2]);
                    ((other 6, 0x7e1, None), [Examples.v1])]);
   ("TOYOTA C-HR", [((engine, 0x700, None), [Examples.v2])]);
   ("TOYOTA PRIUS", [((esp, 0x7b0, None), [Examples.v1])]);
   ("debug", [])].

Definition FW_VERSIONS_reordered : fw_table :=
  [("TOYOTA RAV4", [((esp, 0x7b0, None), [Examples.v1])]);
   ("HONDA CIVIC", [((other 6, 0x7e1, None), [Examples.v1]);
                    ((engine, 0x7e0, None), [Examples.v1; Examples.v2])]);
   ("TOYOTA C-HR", [((engine, 0x700, None), [Examples.v2])]);
   ("TOYOTA PRIUS", [((esp, 0x7b0, None), [Examples.v1])]);
   ("debug", [])].
(** A table whose only model has an empty fingerprint. *)
Definition no_keys : brand_table := [("honda", [("HONDA CIVIC", [])])].

(** An extra table that names the brand honda. *)
Definition extra_honda : brand_table :=
  [("honda", [("debug", [((unknown, 0x700, None), [])])])].

(** A transport that raises on every invocation. *)
Definition dead_transport (w : nat) (addrs : list addr_t)
    (request response : list bytes) (t : float)
    : nat * (string + dict addr_t bytes) :=
  (S w, inl "timeout").
(** Two brands that give one type to the address they share. *)
Definition consistent : brand_table :=
  [("toyota", [("TOYOTA PRIUS", [((esp, 0x7b0, None), [Examples.v1])])]);
   ("subaru", [("SUBARU IMPREZA", [((esp, 0x7b0, None), [Examples.v2]);
                                   ((engine, 0x7e0, None), [Examples.v3])])])].
End MoreExamples.

(** * Properties

  ** Dictionaries *)

Module PyDictFacts.
Section dict.
Context {K V : Type} `{EqDecision K}.
Implicit Types (d e : dict K V) (k : K) (v : V).

Lemma get_set_eq d k v : get (set d k v) k = Some v.
Proof.
  induction d as [|[k' v'] d IH]; simpl.
  - by rewrite decide_True.
  - destruct (decide (k = k')) as [->|Hne]; simpl.
    + by rewrite decide_True.
    + by rewrite decide_False.
Qed.

Lemma get_set_ne d k k' v : k ≠ k' → get (set d k v) k' = get d k'.
Proof.
  intros Hne. induction d as [|[k0 v0] d IH]; simpl.
  - by rewrite decide_False.
  - destruct (decide (k = k0)) as [->|Hk]; simpl.
    + by rewrite !decide_False.
    + destruct (decide (k' = k0)); done.
Qed.

Lemma get_set d k k' v :
  get (set d k v) k' = if decide (k = k') then Some v else get d k'.
Proof.
  destruct (decide (k = k')) as [->|Hne];
    [apply get_set_eq | by apply get_set_ne].
Qed.

Lemma keys_set_in d k v : k ∈ keys d → keys (set d k v) = keys d.
Proof.
  unfold keys. induction d as [|[k' v'] d IH]; simpl; intros Hin.
  - by apply elem_of_nil in Hin.
  - destruct (decide (k = k')) as [->|Hne]; simpl; [done|].
    f_equal. apply IH. apply elem_of_cons in Hin as [?|?]; done.
Qed.

Lemma keys_set_notin d k v : k ∉ keys d → keys (set d k v) = keys d ++ [k].
Proof.
  unfold keys. induction d as [|[k' v'] d IH]; simpl; intros Hin; [done|].
  rewrite not_elem_of_cons in Hin. destruct Hin as [Hne Hin].
  rewrite decide_False by done. simpl. f_equal. by apply IH.
Qed.

Lemma wf_set d k v : wf d → wf (set d k v).
Proof.
  unfold wf. intros Hd. destruct (decide (k ∈ keys d)) as [Hin|Hout].
  - by rewrite keys_set_in.
  - rewrite keys_set_notin by done. apply NoDup_app. split_and!; [done| |].
    + intros x Hx Hx'. apply list_elem_of_singleton in Hx'. by subst.
    + apply NoDup_singleton.
Qed.

Lemma wf_update d e : wf d → wf (update d e).
Proof.
  unfold update. revert d.
  induction e as [|[k v] e IH]; simpl; intros d Hd; [done|].
  apply IH. by apply wf_set.
Qed.

Lemma get_None d k : get d k = None ↔ k ∉ keys d.
Proof.
  unfold keys. induction d as [|[k' v'] d IH]; simpl.
  - split; [intros _; apply not_elem_of_nil|done].
  - rewrite not_elem_of_cons.
    destruct (decide (k = k')) as [->|Hne].
    + split; [done|]. by intros [? _].
    + rewrite IH. split; [done|]. by intros [_ ?].
Qed.

Lemma get_Some_elem_of d k v : get d k = Some v → (k, v) ∈ d.
Proof.
  induction d as [|[k' v'] d IH]; simpl; [done|].
  destruct (decide (k = k')) as [->|Hne].
  - intros [= ->]. apply elem_of_cons. by left.
  - intros H. apply elem_of_cons. right. by apply IH.
Qed.

Lemma elem_of_get_Some d k v : wf d → (k, v) ∈ d → get d k = Some v.
Proof.
  unfold wf, keys. induction d as [|[k' v'] d IH]; simpl; intros Hd Hin.
  - by apply elem_of_nil in Hin.
  - apply NoDup_cons in Hd as [Hk Hd].
    apply elem_of_cons in Hin as [[= -> ->]|Hin].
    + by rewrite decide_True.
    + rewrite decide_False; [by apply IH|].
      intros ->. apply Hk. apply list_elem_of_fmap. by exists (k', v).
Qed.

(** Lookup after [update]: the last item of [e] for the key, else [d]. *)
Lemma get_update d e k :
  get (update d e) k =
    match get (reverse e) k with Some v => Some v | None => get d k end.
Proof.
  unfold update. revert d.
  induction e as [|[k' v'] e IH] using rev_ind; intros d; [done|].
  rewrite fold_left_app, reverse_app. simpl.
  rewrite get_set. destruct (decide (k' = k)) as [->|Hne].
  - by rewrite decide_True.
  - rewrite decide_False by done. apply IH.
Qed.
End dict.
End PyDictFacts.

Import PyDictFacts.

(** ** Properties of the matcher *)

Section matcher_facts.
Variable TOYOTA : ToyotaCAR.

Lemma fws_invalid_true d candidate fws :
  fws_invalid TOYOTA d candidate fws = true ↔
  ∃ entry, entry ∈ fws ∧ entry_invalid TOYOTA d candidate entry = true.
Proof.
  induction fws as [|e fws IH]; simpl.
  - split; [done|]. intros (e & He & _). by apply elem_of_nil in He.
  - destruct (entry_invalid TOYOTA d candidate e) eqn:He.
    + split; [|done]. intros _. exists e. split; [apply elem_of_cons; by left|done].
    + rewrite IH. split.
      * intros (e' & Hin & Hinv). exists e'. split; [|done].
        apply elem_of_cons. by right.
      * intros (e' & Hin & Hinv). exists e'. split; [|done].
        apply elem_of_cons in Hin as [->|Hin]; [congruence|done].
Qed.

Lemma fws_invalid_false d candidate fws :
  fws_invalid TOYOTA d candidate fws = false ↔
  ∀ entry, entry ∈ fws → entry_invalid TOYOTA d candidate entry = false.
Proof.
  rewrite <- not_true_iff_false, fws_invalid_true. split.
  - intros Hno e He. apply not_true_iff_false. intros Hinv. apply Hno. eauto.
  - intros Hall (e & He & Hinv). rewrite (Hall e He) in Hinv. done.
Qed.

Lemma elem_of_collect_invalid d candidates invalid x :
  x ∈ collect_invalid TOYOTA d candidates invalid ↔
  x ∈ invalid ∨
  ∃ fws, (x, fws) ∈ candidates ∧ fws_invalid TOYOTA d x fws = true.
Proof.
  revert invalid.
  induction candidates as [|[c fws] candidates IH]; intros invalid; simpl.
  - split; [by left|]. intros [?|(fws & Hin & _)]; [done|].
    by apply elem_of_nil in Hin.
  - rewrite IH. destruct (fws_invalid TOYOTA d c fws) eqn:Hc.
    + rewrite elem_of_app, list_elem_of_singleton. split.
      * intros [[?| ->]|(fws' & Hin & Hinv)]; [by left| |].
        -- right. exists fws. split; [apply elem_of_cons; by left|done].
        -- right. exists fws'. split; [apply elem_of_cons; by right|done].
      * intros [?|(fws' & Hin & Hinv)]; [by left; left|].
        apply elem_of_cons in Hin as [[= -> ->]|Hin]; [by left; right|].
        right. eauto.
    + split.
      * intros [?|(fws' & Hin & Hinv)]; [by left|].
        right. exists fws'. split; [apply elem_of_cons; by right|done].
      * intros [?|(fws' & Hin & Hinv)]; [by left|].
        apply elem_of_cons in Hin as [[= -> ->]|Hin]; [congruence|].
        right. eauto.
Qed.

(** Membership in the result, for a table whose keys are unique. *)
Lemma elem_of_match_fw_to_car FW_VERSIONS fw_versions candidate fws :
  wf FW_VERSIONS → (candidate, fws) ∈ FW_VERSIONS →
  candidate ∈ match_fw_to_car TOYOTA FW_VERSIONS fw_versions ↔
  fws_invalid TOYOTA (build_fw_versions_dict fw_versions) candidate fws = false.
Proof.
  intros Hwf Hin. unfold match_fw_to_car.
  rewrite elem_of_difference, !elem_of_list_to_set, elem_of_collect_invalid.
  assert (candidate ∈ keys FW_VERSIONS) as Hk.
  { apply list_elem_of_fmap. by exists (candidate, fws). }
  split.
  - intros [_ Hno]. apply not_true_iff_false. intros Hinv.
    apply Hno. right. eauto.
  - intros Hok. split; [done|]. intros [Hnil|(fws' & Hin' & Hinv)].
    + by apply elem_of_nil in Hnil.
    + assert (fws' = fws) as ->; [|congruence].
      apply (elem_of_get_Some _ _ _ Hwf) in Hin, Hin'. congruence.
Qed.

(** What the loop body decides, by the observation of the entry's key. *)
Lemma entry_invalid_found (d : dict addr_t bytes) candidate ecu_type a s
    expected v :
  get d (a, s) = Some v →
  entry_invalid TOYOTA d candidate ((ecu_type, a, s), expected)
  = bool_decide (v ∉ expected).
Proof.
  intros Hv. unfold entry_invalid. cbn beta iota zeta. rewrite Hv.
  rewrite (bool_decide_eq_false_2 (Some v = None)) by done.
  by rewrite !andb_false_r.
Qed.

Lemma entry_invalid_missing (d : dict addr_t bytes) candidate ecu_type a s
    expected :
  get d (a, s) = None →
  entry_invalid TOYOTA d candidate ((ecu_type, a, s), expected)
  = negb (allow_listed TOYOTA candidate ecu_type
          || bool_decide (ecu_type ∉ ESSENTIAL_ECUS)).
Proof.
  intros Hv. unfold entry_invalid, allow_listed. cbn beta iota zeta. rewrite Hv.
  rewrite (bool_decide_eq_true_2 (None = None)) by done.
  rewrite !andb_true_r. simpl.
  rewrite !bool_decide_and.
  destruct (bool_decide (ecu_type = esp) && _); [done|].
  destruct (bool_decide (ecu_type = engine) && _); [done|].
  by destruct (bool_decide (ecu_type ∉ ESSENTIAL_ECUS)).
Qed.
End matcher_facts.

(** ** The matcher: claims on [match_fw_to_car] *)

Section matcher_claims.
Variable TOYOTA : ToyotaCAR.

(** C9. The candidate set is a subset of the models of the fingerprint
    table, and a model whose fingerprint has no entry is always in it. *)
Theorem match_fw_to_car_shrinks (FW_VERSIONS : fw_table)
    (fw_versions : list CarFw) (Hwf : wf FW_VERSIONS) :
  match_fw_to_car TOYOTA FW_VERSIONS fw_versions
    ⊆ list_to_set (keys FW_VERSIONS)
  ∧ ∀ candidate, (candidate, []) ∈ FW_VERSIONS →
      candidate ∈ match_fw_to_car TOYOTA FW_VERSIONS fw_versions.
Proof.
  split.
  - unfold match_fw_to_car. apply subseteq_difference_l. done.
  - intros candidate Hin.
    by apply (elem_of_match_fw_to_car TOYOTA _ _ _ [] Hwf Hin).
Qed.

(** C2. For a model of the table and an entry of its fingerprint: an
    observation of the entry's key that is one of the expected versions does
    not disqualify the model, and a model all of whose entries are observed
    so stays a candidate; an observed value that is not an expected version
    (a missing one included, when no leniency rule applies) excludes the
    model.  With the single observation [(addr1, None) -> v1] and one model
    that requires the engine at [(addr1, None)] to be [v1] or [v2], the
    model is a candidate; with [v3] observed instead it is not. *)
Theorem match_fw_to_car_exact :
  (∀ (FW_VERSIONS : fw_table) fw_versions candidate fws,
     let d := build_fw_versions_dict fw_versions in
     wf FW_VERSIONS → (candidate, fws) ∈ FW_VERSIONS →
     (∀ ecu_type a s expected v,
        get d (a, s) = Some v → v ∈ expected →
        entry_invalid TOYOTA d candidate ((ecu_type, a, s), expected) = false)
     ∧ ((∀ ecu_type a s expected,
           ((ecu_type, a, s), expected) ∈ fws →
           ∃ v, get d (a, s) = Some v ∧ v ∈ expected) →
        candidate ∈ match_fw_to_car TOYOTA FW_VERSIONS fw_versions)
     ∧ (∀ ecu_type a s expected,
          ((ecu_type, a, s), expected) ∈ fws →
          (∀ v, get d (a, s) = Some v → v ∉ expected) →
          (get d (a, s) = None →
           tolerates_missing TOYOTA candidate ecu_type = false) →
          candidate ∉ match_fw_to_car TOYOTA FW_VERSIONS fw_versions))
  ∧ (∀ model addr1 e,
       model ∈ match_fw_to_car TOYOTA (Examples.one_model model addr1)
                 [mkCarFw e Examples.v1 addr1 0]
       ∧ model ∉ match_fw_to_car TOYOTA (Examples.one_model model addr1)
                   [mkCarFw e Examples.v3 addr1 0]).
Proof.
  assert (∀ (FW_VERSIONS : fw_table) fw_versions candidate fws
            ecu_type a s expected,
            wf FW_VERSIONS → (candidate, fws) ∈ FW_VERSIONS →
            ((ecu_type, a, s), expected) ∈ fws →
            entry_invalid TOYOTA (build_fw_versions_dict fw_versions)
              candidate ((ecu_type, a, s), expected) = true →
            candidate ∉ match_fw_to_car TOYOTA FW_VERSIONS fw_versions)
    as Hexcl.
  { intros FW fwv candidate fws ecu_type a s expected Hwf Hc He Hinv.
    rewrite (elem_of_match_fw_to_car TOYOTA _ _ _ _ Hwf Hc).
    apply not_false_iff_true, fws_invalid_true. eauto. }
  split.
  - intros FW fwv candidate fws d Hwf Hc. split_and!.
    + intros ecu_type a s expected v Hv Hin.
      rewrite (entry_invalid_found _ _ _ _ _ _ _ v Hv).
      by apply bool_decide_eq_false_2; intros ?.
    + intros Hall. apply (elem_of_match_fw_to_car TOYOTA _ _ _ _ Hwf Hc).
      apply fws_invalid_false. intros [[[ecu_type a] s] expected] He.
      destruct (Hall _ _ _ _ He) as (v & Hv & Hin).
      rewrite (entry_invalid_found _ _ _ _ _ _ _ v Hv).
      by apply bool_decide_eq_false_2; intros ?.
    + intros ecu_type a s expected He Hnot Hmiss.
      apply (Hexcl _ _ _ _ _ _ _ _ Hwf Hc He). fold d.
      destruct (get d (a, s)) as [v|] eqn:Hv.
      * rewrite (entry_invalid_found _ _ _ _ _ _ _ v Hv).
        apply bool_decide_eq_true_2. by apply Hnot.
      * rewrite (entry_invalid_missing _ _ _ _ _ _ _ Hv).
        fold (tolerates_missing TOYOTA candidate ecu_type).
        by rewrite Hmiss.
  - intros model addr1 e.
    assert (wf (Examples.one_model model addr1)) as Hwf.
    { apply NoDup_singleton. }
    assert ((model, [((engine, addr1, None), [Examples.v1; Examples.v2])])
              ∈ Examples.one_model model addr1) as Hc.
    { apply list_elem_of_singleton. done. }
    assert (∀ v, get (build_fw_versions_dict [mkCarFw e v addr1 0])
                   (addr1, None) = Some v) as Hget.
    { intros v. unfold build_fw_versions_dict, decode_sub_addr. simpl.
      by rewrite decide_True. }
    split.
    + apply (elem_of_match_fw_to_car TOYOTA _ _ _ _ Hwf Hc).
      apply fws_invalid_false. intros entry Hin.
      apply list_elem_of_singleton in Hin as ->.
      rewrite (entry_invalid_found _ _ _ _ _ _ _ _ (Hget _)).
      apply bool_decide_eq_false_2.
      intros Hn. apply Hn. apply elem_of_cons. by left.
    + apply (Hexcl _ _ _ _ engine addr1 None [Examples.v1; Examples.v2] Hwf Hc).
      { apply list_elem_of_singleton. done. }
      rewrite (entry_invalid_found _ _ _ _ _ _ _ _ (Hget _)).
      apply bool_decide_eq_true_2. vm_compute.
      intros Hin. repeat (apply elem_of_cons in Hin as [Hin|Hin]; [done|]).
      by apply elem_of_nil in Hin.
Qed.

(** C3. For an entry of a model's fingerprint whose key has no observation:
    if its type is not an essential one, or the entry falls under an
    allow-list exception, the entry is passed over, so the model is a
    candidate exactly when no other entry disqualifies it; if its type is
    essential and no exception covers it, the model is excluded. *)
Theorem match_fw_to_car_essential (FW_VERSIONS : fw_table)
    (fw_versions : list CarFw) (candidate : string) (fws : fingerprint)
    (ecu_type : Ecu) (a : Z) (s : option Z) (expected : list bytes)
    (Hwf : wf FW_VERSIONS) (Hc : (candidate, fws) ∈ FW_VERSIONS)
    (He : ((ecu_type, a, s), expected) ∈ fws)
    (Hmiss : get (build_fw_versions_dict fw_versions) (a, s) = None) :
  (ecu_type ∉ ESSENTIAL_ECUS ∨ allow_listed TOYOTA candidate ecu_type = true →
   (candidate ∈ match_fw_to_car TOYOTA FW_VERSIONS fw_versions ↔
    ∀ entry, entry ∈ fws → entry ≠ ((ecu_type, a, s), expected) →
      entry_invalid TOYOTA (build_fw_versions_dict fw_versions)
        candidate entry = false))
  ∧ (ecu_type ∈ ESSENTIAL_ECUS →
     allow_listed TOYOTA candidate ecu_type = false →
     candidate ∉ match_fw_to_car TOYOTA FW_VERSIONS fw_versions)
  ∧ (allow_listed TOYOTA candidate ecu_type = true ↔
     (ecu_type = esp ∧
      candidate ∈ [RAV4 TOYOTA; COROLLA TOYOTA; HIGHLANDER TOYOTA])
     ∨ (ecu_type = engine ∧
        candidate ∈ [COROLLA_TSS2 TOYOTA; CHR TOYOTA])).
Proof.
  pose proof (entry_invalid_missing TOYOTA _ candidate ecu_type a s expected
                Hmiss) as Hinv.
  rewrite (elem_of_match_fw_to_car TOYOTA _ _ _ _ Hwf Hc).
  split_and!.
  - intros Hlen. rewrite fws_invalid_false.
    assert (entry_invalid TOYOTA (build_fw_versions_dict fw_versions)
              candidate (ecu_type, a, s, expected) = false) as Hok.
    { rewrite Hinv. apply negb_false_iff, orb_true_iff.
      destruct Hlen as [Hne|Hal]; [right|by left].
      by apply bool_decide_eq_true_2. }
    split.
    + intros Hall entry Hin _. by apply Hall.
    + intros Hall entry Hin.
      destruct (decide (entry = (ecu_type, a, s, expected))) as [->|Hne];
        [done|by apply Hall].
  - intros Hess Hal. apply not_false_iff_true, fws_invalid_true.
    exists (ecu_type, a, s, expected). split; [done|].
    rewrite Hinv, Hal. simpl. apply negb_true_iff.
    apply bool_decide_eq_false_2. by intros Hn.
  - unfold allow_listed.
    rewrite orb_true_iff, !bool_decide_eq_true. done.
Qed.
End matcher_claims.

Lemma match_fw_to_car_shrinks_witness :
  "debug"%string ∈
    match_fw_to_car Examples.TOYOTA Examples.FW_VERSIONS
      [Examples.observed 0x7e0 0 Examples.v3].
Proof.
  apply (match_fw_to_car_shrinks Examples.TOYOTA Examples.FW_VERSIONS
           [Examples.observed 0x7e0 0 Examples.v3]).
  - apply (bool_decide_unpack _). vm_compute. exact I.
  - apply (bool_decide_unpack _). vm_compute. exact I.
Defined.

(** ** The planner *)

Lemma plan_brand_steps st brand (brand_versions : fw_table) :
  plan_brand st (brand, brand_versions) =
  fold_left plan_step
    (c ← values brand_versions; k ← keys (c : fingerprint); [(brand, k)]) st.
Proof.
  unfold plan_brand. revert st.
  induction (values brand_versions) as [|c cs IH]; intros st; [done|].
  simpl. rewrite fold_left_app, <- IH. f_equal.
  generalize (keys c). intros ks. revert st.
  induction ks as [|k ks IHk]; intros st; [done|]. simpl. apply IHk.
Qed.

Lemma planner_steps (versions : brand_table) st :
  fold_left plan_brand versions st =
  fold_left plan_step (table_keys versions) st.
Proof.
  unfold table_keys. revert st.
  induction versions as [|[brand bv] versions IH]; intros st; [done|].
  simpl. rewrite fold_left_app, <- IH. f_equal. apply plan_brand_steps.
Qed.

Lemma pairs_only_set d addr sub_addr e :
  pairs_only d → pairs_only (set d (Pair addr sub_addr) e).
Proof.
  intros Hd brand a s Hin. apply (Hd brand a s).
  destruct (decide (Pair addr sub_addr ∈ keys d)) as [Hk|Hk].
  - by rewrite keys_set_in in Hin.
  - rewrite keys_set_notin in Hin by done.
    apply elem_of_app in Hin as [?|Hin]; [done|].
    by apply list_elem_of_singleton in Hin.
Qed.

Lemma plan_step_ecu_types st brand ecu_type addr sub_addr :
  pairs_only (ecu_types st) →
  ecu_types (plan_step st (brand, (ecu_type, addr, sub_addr)))
  = set (ecu_types st) (Pair addr sub_addr) ecu_type.
Proof.
  intros Hp. unfold plan_step, plan_key. simpl.
  rewrite (bool_decide_eq_true_2 (Triple brand addr sub_addr ∉ _)) by apply Hp.
  destruct sub_addr; simpl; by repeat case_bool_decide.
Qed.

(** The recorded types are those of an unconditional assignment per key. *)
Lemma planner_ecu_types_fold (l : list (string * ecu_key)) st :
  pairs_only (ecu_types st) →
  ecu_types (fold_left plan_step l st)
  = fold_left (fun d bk => set d (Pair bk.2.1.2 bk.2.2) bk.2.1.1) l (ecu_types st)
  ∧ pairs_only (ecu_types (fold_left plan_step l st)).
Proof.
  revert st. induction l as [|[brand [[e a] s]] l IH]; intros st Hp; [done|].
  cbn [fold_left]. pose proof (plan_step_ecu_types st brand e a s Hp) as Hs.
  destruct (IH (plan_step st (brand, (e, a, s)))) as [IH1 IH2].
  { rewrite Hs. by apply pairs_only_set. }
  split; [|done]. etrans; [apply IH1|]. f_equal. apply Hs.
Qed.

Lemma get_ecu_types_fold (l : list (string * ecu_key)) d a s :
  get (fold_left (fun d bk => set d (Pair bk.2.1.2 bk.2.2) bk.2.1.1) l d)
      (Pair a s)
  = match last (types_of l (a, s)) with
    | Some e => Some e
    | None => get d (Pair a s)
    end.
Proof.
  revert d. induction l as [|[brand [[e a'] s']] l IH] using rev_ind;
    intros d; [done|].
  rewrite fold_left_app. unfold types_of. rewrite omap_app. simpl.
  rewrite get_set. destruct (decide ((a', s') = (a, s))) as [[= -> ->]|Hne].
  - rewrite decide_True by done. by rewrite last_snoc.
  - rewrite decide_False by congruence. rewrite app_nil_r. apply IH.
Qed.

(** C6. The planner records for every pair the type of the LAST key that
    carries it, because the guard tests the triple [a] against a dictionary
    keyed by pairs.  On [Examples.versions] the first writer of
    [(0x7e0, 1)] says [engine] and the recorded type is [esp]. *)
Theorem planner_ecu_types_last_writer :
  (∀ (versions : brand_table) a s,
     get (planner versions).1 (Pair a s)
     = last (types_of (table_keys versions) (a, s)))
  ∧ head (types_of (table_keys Examples.versions) (0x7e0, Some 1))
    = Some engine
  ∧ get (planner Examples.versions).1 (Pair 0x7e0 (Some 1)) = Some esp.
Proof.
  split; [|by vm_compute].
  intros versions a s. unfold planner. cbn [fst].
  rewrite planner_steps.
  destruct (planner_ecu_types_fold (table_keys versions) (mkPlan [] [] []))
    as [-> _].
  { intros brand a' s' Hin. by apply elem_of_nil in Hin. }
  rewrite get_ecu_types_fold. simpl. by destruct (last _).
Qed.

Lemma singleton_elem_of {A} (x : A) (l : list A) :
  [x] ∈ (fun a => [a]) <$> l ↔ x ∈ l.
Proof.
  rewrite list_elem_of_fmap. split.
  - by intros (y & [= ->] & Hy).
  - intros Hx. by exists x.
Qed.

Lemma plan_step_None st brand e a :
  let x := (brand, a, None) in
  addrs (plan_step st (brand, (e, a, None))) = addrs st
  ∧ parallel_addrs (plan_step st (brand, (e, a, None)))
    = if decide (x ∈ parallel_addrs st) then parallel_addrs st
      else parallel_addrs st ++ [x].
Proof.
  unfold plan_step, plan_key. simpl.
  destruct (decide ((brand, a, None) ∈ parallel_addrs st)) as [Hin|Hout].
  - by rewrite (bool_decide_eq_false_2 (_ ∉ parallel_addrs st)) by auto.
  - by rewrite (bool_decide_eq_true_2 (_ ∉ parallel_addrs st)) by auto.
Qed.

Lemma plan_step_Some st brand e a s :
  let x := (brand, a, Some s) in
  parallel_addrs (plan_step st (brand, (e, a, Some s))) = parallel_addrs st
  ∧ addrs (plan_step st (brand, (e, a, Some s)))
    = if decide ([x] ∈ addrs st) then addrs st else addrs st ++ [[x]].
Proof.
  unfold plan_step, plan_key. simpl.
  destruct (decide ([(brand, a, Some s)] ∈ addrs st)) as [Hin|Hout].
  - by rewrite (bool_decide_eq_false_2 (_ ∉ addrs st)) by auto.
  - by rewrite (bool_decide_eq_true_2 (_ ∉ addrs st)) by auto.
Qed.

(** The invariant of the planner loop: the parallel group and the list of
    singleton groups hold each tagged address once. *)
Lemma planner_groups (l : list (string * ecu_key)) st (S : list baddr_t) :
  addrs st = (fun a => [a]) <$> S →
  NoDup (parallel_addrs st) → NoDup S →
  ∃ S', addrs (fold_left plan_step l st) = (fun a => [a]) <$> S'
    ∧ NoDup (parallel_addrs (fold_left plan_step l st)) ∧ NoDup S'
    ∧ (∀ x, x ∈ parallel_addrs (fold_left plan_step l st) ↔
            x ∈ parallel_addrs st ∨ (x ∈ tagged_addr <$> l ∧ x.2 = None))
    ∧ (∀ x, x ∈ S' ↔ x ∈ S ∨ (x ∈ tagged_addr <$> l ∧ x.2 ≠ None)).
Proof.
  revert st S. induction l as [|[brand [[e a] [s|]]] l IH]; intros st S HS HP HN.
  - exists S. split_and!; try done.
    + intros x. split; [by left|]. intros [?|[Hx _]]; [done|].
      by apply elem_of_nil in Hx.
    + intros x. split; [by left|]. intros [?|[Hx _]]; [done|].
      by apply elem_of_nil in Hx.
  - cbn [fold_left]. destruct (plan_step_Some st brand e a s) as [Hpar Had].
    set (st' := plan_step st (brand, (e, a, Some s))) in *.
    set (x0 := (brand, a, Some s)) in *.
    destruct (IH st' (if decide (x0 ∈ S) then S else S ++ [x0]))
      as (S' & HS' & HP' & HN' & Hmp & Hms).
    { rewrite Had, HS. clear Had.
      destruct (decide ([x0] ∈ (fun a0 : baddr_t => [a0]) <$> S)) as [Hin|Hout].
      - rewrite singleton_elem_of in Hin. by rewrite decide_True.
      - rewrite singleton_elem_of in Hout. rewrite decide_False by done.
        by rewrite fmap_app. }
    { by rewrite Hpar. }
    { destruct (decide (x0 ∈ S)); [done|]. apply NoDup_app. split_and!; [done| |].
      - intros y Hy Hy'. apply list_elem_of_singleton in Hy'. by subst.
      - apply NoDup_singleton. }
    exists S'. split_and!; try done.
    + intros x. etrans; [apply Hmp|]. rewrite Hpar, fmap_cons, elem_of_cons.
      change (tagged_addr (brand, (e, a, Some s))) with x0.
      subst x0. naive_solver.
    + intros x. etrans; [apply Hms|]. rewrite fmap_cons, elem_of_cons.
      change (tagged_addr (brand, (e, a, Some s))) with x0.
      destruct (decide (x0 ∈ S)) as [Hin|Hout].
      * subst x0. naive_solver.
      * rewrite elem_of_app, list_elem_of_singleton. subst x0. naive_solver.
  - cbn [fold_left]. destruct (plan_step_None st brand e a) as [Had Hpar].
    set (st' := plan_step st (brand, (e, a, None))) in *.
    set (x0 := (brand, a, None)) in *.
    destruct (IH st' S) as (S' & HS' & HP' & HN' & Hmp & Hms).
    { by rewrite Had. }
    { rewrite Hpar. clear Hpar.
      destruct (decide (x0 ∈ parallel_addrs st)); [done|].
      apply NoDup_app. split_and!; [done| |].
      - intros y Hy Hy'. apply list_elem_of_singleton in Hy'. by subst.
      - apply NoDup_singleton. }
    { done. }
    exists S'. split_and!; try done.
    + intros x. etrans; [apply Hmp|]. rewrite Hpar, fmap_cons, elem_of_cons.
      change (tagged_addr (brand, (e, a, None))) with x0.
      destruct (decide (x0 ∈ parallel_addrs st)) as [Hin|Hout].
      * subst x0. naive_solver.
      * rewrite elem_of_app, list_elem_of_singleton. subst x0. naive_solver.
    + intros x. etrans; [apply Hms|]. rewrite fmap_cons, elem_of_cons.
      change (tagged_addr (brand, (e, a, None))) with x0.
      subst x0. naive_solver.
Qed.

Lemma groups_of_singletons (S : list baddr_t) (x : baddr_t) :
  NoDup S →
  length (groups_of ((fun a => [a]) <$> S) x)
  = if decide (x ∈ S) then 1%nat else 0%nat.
Proof.
  unfold groups_of. induction S as [|y S IH]; intros HN.
  - destruct (decide (x ∈ [])) as [Hx|_]; [by apply elem_of_nil in Hx|done].
  - apply NoDup_cons in HN as [Hy HN]. rewrite fmap_cons, filter_cons.
    specialize (IH HN).
    destruct (decide (x ∈ [y])) as [Hxy|Hxy];
      rewrite list_elem_of_singleton in Hxy.
    + subst y. destruct (decide (x ∈ S)) as [?|_]; [done|].
      destruct (decide (x ∈ x :: S)) as [_|Hn]; [by simpl; rewrite IH|].
      exfalso. apply Hn, elem_of_cons. by left.
    + rewrite IH. destruct (decide (x ∈ S)) as [Hin|Hout].
      * destruct (decide (x ∈ y :: S)) as [_|Hn]; [done|].
        exfalso. apply Hn, elem_of_cons. by right.
      * destruct (decide (x ∈ y :: S)) as [Hn|_]; [|done].
        apply elem_of_cons in Hn as [?|?]; done.
Qed.

(** The shape of the plan: the parallel group, then one singleton group per
    sub-addressed tagged address, nothing twice and nothing else. *)
Lemma planner_plan_shape (table : brand_table) :
  ∃ parallel singles,
    (planner table).2 = parallel :: ((fun a => [a]) <$> singles)
    ∧ NoDup parallel ∧ NoDup singles
    ∧ (∀ x, x ∈ parallel ↔ x ∈ table_addrs table ∧ x.2 = None)
    ∧ (∀ x, x ∈ singles ↔ x ∈ table_addrs table ∧ x.2 ≠ None).
Proof.
  unfold planner. cbn [snd]. rewrite planner_steps.
  destruct (planner_groups (table_keys table) (mkPlan [] [] []) [])
    as (S' & HS' & HP' & HN' & Hmp & Hms); [done|apply NoDup_nil_2..|].
  set (st := fold_left plan_step (table_keys table) _) in *.
  exists (parallel_addrs st), S'. rewrite HS'. split_and!; try done.
  - intros x. rewrite Hmp. simpl. split; [|by right].
    intros [Hx|?]; [by apply elem_of_nil in Hx|done].
  - intros x. rewrite Hms. split; [|by right].
    intros [Hx|?]; [by apply elem_of_nil in Hx|done].
Qed.

(** In a plan of that shape a tagged address is in exactly one group. *)
Lemma groups_of_plan (parallel singles : list baddr_t) (x : baddr_t) :
  NoDup singles →
  (x ∈ parallel → x.2 = None) → (x ∈ singles → x.2 ≠ None) →
  x ∈ parallel ∨ x ∈ singles →
  length (groups_of (parallel :: ((fun a => [a]) <$> singles)) x) = 1%nat.
Proof.
  intros HN Hp Hs Hin.
  pose proof (groups_of_singletons singles x HN) as Hlen.
  unfold groups_of in *. rewrite filter_cons.
  destruct (decide (x ∈ parallel)) as [Hxp|Hxp];
    destruct (decide (x ∈ singles)) as [Hxs|Hxs];
    cbn [length]; rewrite ?Hlen; try done.
  - by destruct (Hs Hxs (Hp Hxp)).
  - by destruct Hin.
Qed.

(** C1, as the planner has it.  The plan is the parallel group followed by
    singleton groups; every tagged address [(brand, addr, sub_addr)] of the
    table (the caller's extra table merged in) is in exactly one group and
    once in it: in the parallel group when [sub_addr] is [None], in a
    singleton group of its own otherwise; nothing else is planned. *)
Theorem planner_partition (versions : brand_table)
    (extra : option brand_table) :
  let table := merge_extra versions extra in
  ∃ parallel singles,
    (planner table).2 = parallel :: ((fun a => [a]) <$> singles)
    ∧ NoDup parallel ∧ NoDup singles
    ∧ (∀ x, x ∈ parallel ↔ x ∈ table_addrs table ∧ x.2 = None)
    ∧ (∀ x, x ∈ singles ↔ x ∈ table_addrs table ∧ x.2 ≠ None)
    ∧ (∀ x, x ∈ table_addrs table →
            length (groups_of (planner table).2 x) = 1%nat).
Proof.
  intros table.
  destruct (planner_plan_shape table)
    as (parallel & singles & Hplan & HNp & HNs & Hpar & Hsing).
  exists parallel, singles. split_and!; try done.
  intros x Hx. rewrite Hplan. apply groups_of_plan; [done| | |].
  - intros Hin. by apply Hpar in Hin as [_ ?].
  - intros Hin. by apply Hsing in Hin as [_ ?].
  - destruct (x.2) as [s|] eqn:Hsub.
    + right. apply Hsing. by rewrite Hsub.
    + left. by apply Hpar.
Qed.

Lemma no_occurrence_untagged (l : list baddr_t) (x : baddr_t) :
  x ∉ l → (∀ y, y ∈ l → untagged y = untagged x → y = x) →
  filter (fun a => a = untagged x) (untagged <$> l) = [].
Proof.
  induction l as [|y l IH]; intros Hx Hinj; [done|].
  apply not_elem_of_cons in Hx as [Hxy Hx].
  rewrite fmap_cons, filter_cons.
  destruct (decide (untagged y = untagged x)) as [Heq|_].
  - destruct Hxy. symmetry. apply Hinj; [apply elem_of_cons; by left|done].
  - apply IH; [done|]. intros z Hz. apply Hinj. apply elem_of_cons. by right.
Qed.

Lemma occurrences_untagged (l : list baddr_t) (x : baddr_t) :
  NoDup l → x ∈ l → (∀ y, y ∈ l → untagged y = untagged x → y = x) →
  length (filter (fun a => a = untagged x) (untagged <$> l)) = 1%nat.
Proof.
  induction l as [|y l IH]; intros HN Hx Hinj.
  { by apply elem_of_nil in Hx. }
  apply NoDup_cons in HN as [Hy HN]. rewrite fmap_cons, filter_cons.
  assert (∀ z, z ∈ l → untagged z = untagged x → z = x) as Htl.
  { intros z Hz. apply Hinj. apply elem_of_cons. by right. }
  destruct (decide (untagged y = untagged x)) as [Heq|Hne].
  - assert (y = x) as -> by (apply Hinj; [apply elem_of_cons; by left|done]).
    by rewrite no_occurrence_untagged.
  - apply IH; [done| |done].
    apply elem_of_cons in Hx as [->|?]; done.
Qed.

(** When no pair of the table stands under two brands, the tagged
    addresses and the pairs are in one-to-one correspondence and the pairs
    are partitioned as well. *)
Lemma planner_pairs_partitioned (versions : brand_table)
    (extra : option brand_table) :
  let table := merge_extra versions extra in
  (∀ x y, x ∈ table_addrs table → y ∈ table_addrs table →
          untagged x = untagged y → x = y) →
  pairs_partitioned table (planner table).2.
Proof.
  intros table Hinj addr Haddr.
  destruct (planner_plan_shape table)
    as (parallel & singles & Hplan & HNp & HNs & Hpar & Hsing).
  assert (∀ x, x ∈ table_addrs table →
               length (groups_of (planner table).2 x) = 1%nat) as Hone.
  { intros x Hx. rewrite Hplan. apply groups_of_plan; [done| | |].
    - intros Hin. by apply Hpar in Hin as [_ ?].
    - intros Hin. by apply Hsing in Hin as [_ ?].
    - destruct (x.2) as [s|] eqn:Hsub.
      + right. apply Hsing. by rewrite Hsub.
      + left. by apply Hpar. }
  apply list_elem_of_fmap in Haddr as (x & -> & Hx).
  assert (∀ g, g ∈ (planner table).2 →
               untagged x ∈ untagged <$> g ↔ x ∈ g) as Hg.
  { intros g Hin. split.
    - intros Hu. apply list_elem_of_fmap in Hu as (y & Hxy & Hy).
      assert (y ∈ table_addrs table) as Hyt.
      { rewrite Hplan in Hin. apply elem_of_cons in Hin as [->|Hin].
        - by apply Hpar in Hy as [? _].
        - apply list_elem_of_fmap in Hin as (z & -> & Hz).
          apply list_elem_of_singleton in Hy as ->.
          by apply Hsing in Hz as [? _]. }
      by rewrite (Hinj x y Hx Hyt Hxy).
    - intros Hin'. apply list_elem_of_fmap. by exists x. }
  split_and!.
  - rewrite <- (Hone x Hx). unfold groups_with, groups_of.
    generalize dependent ((planner table).2). intros plan _ _ Hgs.
    induction plan as [|g plan IH]; [done|].
    rewrite !filter_cons.
    assert (untagged x ∈ untagged <$> g ↔ x ∈ g) as Hhead.
    { apply Hgs. apply elem_of_cons. by left. }
    assert (∀ g', g' ∈ plan → untagged x ∈ untagged <$> g' ↔ x ∈ g') as Htl.
    { intros g' Hg'. apply Hgs. apply elem_of_cons. by right. }
    destruct (decide (untagged x ∈ untagged <$> g)) as [Hu|Hu];
      destruct (decide (x ∈ g)) as [Hm|Hm]; simpl;
      rewrite ?(IH Htl); try done; exfalso; tauto.
  - intros Hnone. rewrite Hplan. cbn [head default from_option id].
    apply occurrences_untagged; [done|by apply Hpar|].
    intros y Hy Hxy. apply Hinj; [by apply Hpar in Hy as [? _]|done..].
  - intros Hsome g Hin Hu. rewrite Hplan in Hin.
    apply (Hg g) in Hu; [|by rewrite Hplan].
    apply elem_of_cons in Hin as [->|Hin].
    + apply Hpar in Hu as [_ Hn]. done.
    + by apply list_elem_of_fmap in Hin as (z & -> & _).
Qed.

(** C1 as stated fails on [Examples.versions]: the pairs are not
    partitioned.  The pair [(0x7e0, 1)] is in the plan groups of index 1 and
    of index 2, and the pair [(0x7e1, None)] stands twice in the parallel
    group. *)
Lemma planner_pairs_not_partitioned :
  let plan := (planner (merge_extra Examples.versions None)).2 in
  ¬ pairs_partitioned (merge_extra Examples.versions None) plan
  ∧ length (groups_with plan (0x7e0, Some 1)) = 2%nat
  ∧ (∃ g1 g2, plan !! 1%nat = Some g1 ∧ plan !! 2%nat = Some g2
              ∧ (0x7e0, Some 1) ∈ untagged <$> g1
              ∧ (0x7e0, Some 1) ∈ untagged <$> g2)
  ∧ untagged <$> default [] (head plan) = [(0x7e1, None); (0x7e1, None)].
Proof.
  split_and!; [|by vm_compute| |by vm_compute].
  - intros Hp. destruct (Hp (0x7e0, Some 1)) as [Hlen _].
    + apply (bool_decide_unpack _). by vm_compute.
    + vm_compute in Hlen. discriminate.
  - eexists _, _. split_and!; [by vm_compute..| |].
    + apply (bool_decide_unpack _). by vm_compute.
    + apply (bool_decide_unpack _). by vm_compute.
Qed.

(** ** The query loop *)

Lemma concat_slices {A : Type} (n k : nat) (l : list A) :
  (length l ≤ k * n)%nat →
  concat ((fun j => take n (drop (j * n) l)) <$> seq 0 k) = l.
Proof.
  revert l. induction k as [|k IH]; intros l Hlen.
  - by destruct l; [|simpl in Hlen; lia].
  - cbn [seq]. rewrite fmap_cons, <- fmap_S_seq, <- list_fmap_compose.
    cbn [concat]. rewrite Nat.mul_0_l, drop_0.
    etrans; [|apply (take_drop n l)]. f_equal.
    etrans; [|apply (IH (drop n l)); rewrite length_drop; lia].
    f_equal. apply list_fmap_ext. intros _ j _. cbn [compose].
    rewrite drop_drop. f_equal; f_equal; lia.
Qed.

(** The chunks of a list are its consecutive slices: none is empty, none is
    longer than [n], and together they are the list. *)
Lemma chunks_spec {A : Type} (l : list A) (n : nat) :
  (0 < n)%nat →
  concat (chunks l n) = l
  ∧ Forall (fun c => (0 < length c ≤ n)%nat) (chunks l n).
Proof.
  intros Hn. unfold chunks.
  pose proof (Nat.div_mod_eq (length l + n - 1) n) as Hdiv.
  pose proof (Nat.mod_upper_bound (length l + n - 1) n ltac:(lia)) as Hmod.
  set (k := ((length l + n - 1) / n)%nat) in *.
  split.
  - apply concat_slices. nia.
  - apply Forall_forall. intros c Hc.
    apply list_elem_of_fmap in Hc as (j & -> & Hj).
    apply elem_of_seq in Hj. rewrite length_take, length_drop.
    assert ((j + 1) * n ≤ k * n)%nat by (apply Nat.mul_le_mono_r; lia).
    nia.
Qed.

Section dict_merge.
Context {K V : Type} `{EqDecision K}.
Implicit Types (d : dict K V) (k : K).

Lemma keys_reverse d : keys (reverse d) = reverse (keys d).
Proof. unfold keys. by rewrite fmap_reverse. Qed.

Lemma wf_reverse d : wf d → wf (reverse d).
Proof. unfold wf. by rewrite keys_reverse, reverse_Permutation. Qed.

Lemma get_reverse_wf d k : wf d → get (reverse d) k = get d k.
Proof.
  intros Hwf. destruct (get d k) as [v|] eqn:Hg.
  - apply elem_of_get_Some; [by apply wf_reverse|].
    apply elem_of_reverse. by apply get_Some_elem_of.
  - apply get_None. rewrite keys_reverse, elem_of_reverse. by apply get_None.
Qed.

Lemma get_reverse_None d k : get (reverse d) k = None ↔ k ∉ keys d.
Proof. by rewrite get_None, keys_reverse, elem_of_reverse. Qed.

(** Lookup after a sequence of merges: the last dictionary that holds the
    key decides. *)
Lemma get_fold_update (ds : list (dict K V)) d0 k :
  get (fold_left update ds d0) k
  = match last (filter (fun d => k ∈ keys d) ds) with
    | Some d => get (reverse d) k
    | None => get d0 k
    end.
Proof.
  induction ds as [|d ds IH] using rev_ind; [done|].
  rewrite fold_left_app, filter_app. simpl. rewrite get_update.
  rewrite filter_cons, filter_nil.
  destruct (decide (k ∈ keys d)) as [Hin|Hout].
  - rewrite last_snoc. destruct (get (reverse d) k) eqn:Hg; [done|].
    by apply get_reverse_None in Hg.
  - rewrite app_nil_r, <- IH.
    by rewrite (proj2 (get_reverse_None d k) Hout).
Qed.

(** A merged value stays as long as no later merge holds its key. *)
Lemma get_fold_update_kept (ds1 ds2 : list (dict K V)) d d0 k v :
  wf d → get d k = Some v → Forall (fun d' => k ∉ keys d') ds2 →
  get (fold_left update (ds1 ++ d :: ds2) d0) k = Some v.
Proof.
  intros Hwf Hget Hlater. rewrite get_fold_update, filter_app, filter_cons.
  destruct (decide (k ∈ keys d)) as [_|Hn].
  - replace (filter (fun d' => k ∈ keys d') ds2) with (@nil (dict K V)).
    + by rewrite (last_snoc d), get_reverse_wf.
    + symmetry. induction Hlater as [|d' ds2 Hd' _ IH]; [done|].
      rewrite filter_cons. by destruct (decide (k ∈ keys d')).
  - apply get_None in Hn. congruence.
Qed.

Lemma wf_fold_update (ds : list (dict K V)) d0 :
  wf d0 → wf (fold_left update ds d0).
Proof.
  revert d0. induction ds as [|d ds IH]; intros d0 Hd; [done|].
  simpl. apply IH. by apply wf_update.
Qed.
End dict_merge.

Section query_facts.
Context {World Exn : Type}.
Variable REQUESTS : list request_entry.
Variable get_data :
  World → list addr_t → list bytes → list bytes → float →
  World * (Exn + dict addr_t bytes).
Variable timeout : float.

Implicit Types (st : @query_state World Exn) (tr : list (@call Exn)).

Lemma runs_refl st : runs st st [].
Proof. exists []. by rewrite !app_nil_r. Qed.

Lemma runs_trans st1 st2 st3 p q :
  runs st1 st2 p → runs st2 st3 q → runs st1 st3 (p ++ q).
Proof.
  intros (tr1 & Ht1 & Hf1 & Hw1 & Ha1) (tr2 & Ht2 & Hf2 & Hw2 & Ha2).
  exists (tr1 ++ tr2). unfold merges, raised in *.
  rewrite !omap_app, fold_left_app, fmap_app, !app_assoc.
  rewrite Ht2, Ht1, Hf2, Hf1, Hw2, Hw1, Ha1, Ha2. done.
Qed.

Lemma runs_fold {X : Type} (f : query_state → X → query_state)
    (P : X → list (nat * list addr_t * list bytes * list bytes * float))
    (l : list X) :
  (∀ st x, runs st (f st x) (P x)) →
  ∀ st, runs st (fold_left f l st) (l ≫= P).
Proof.
  intros Hf. induction l as [|x l IH]; intros st; [apply runs_refl|].
  simpl. eapply runs_trans; [apply Hf|apply IH].
Qed.

Lemma query_request_runs i addr_chunk st r :
  runs st (query_request get_data timeout i addr_chunk st r)
       (planned_request timeout i addr_chunk r).
Proof.
  destruct r as [[brand request] response].
  unfold query_request, planned_request. simpl.
  destruct (brand_addrs brand addr_chunk) as [|a addrs] eqn:Hb.
  - rewrite decide_True by done. apply runs_refl.
  - rewrite decide_False by done.
    destruct (get_data (world st) (a :: addrs) request response _)
      as [w [e|data]] eqn:Hq.
    + eexists [_]. simpl. split_and!; [done|done|done|].
      by destruct (decide (i = 0%nat)); [rewrite bool_decide_eq_true_2
                                         |rewrite bool_decide_eq_false_2].
    + eexists [_]. simpl. split_and!; [done|done|by rewrite app_nil_r|].
      by destruct (decide (i = 0%nat)); [rewrite bool_decide_eq_true_2
                                         |rewrite bool_decide_eq_false_2].
Qed.

Lemma query_plan_runs w plan :
  runs (mkQuery w [] [] []) (query_plan REQUESTS get_data timeout w plan)
       (planned_calls REQUESTS timeout plan).
Proof.
  unfold query_plan, planned_calls. apply runs_fold.
  intros st [i addr]. unfold query_group. apply runs_fold.
  intros st' addr_chunk. unfold query_chunk. apply runs_fold.
  intros st'' r. apply query_request_runs.
Qed.

(** The final state of the loop, by its trace. *)
Lemma query_plan_trace w plan :
  let st := query_plan REQUESTS get_data timeout w plan in
  fw_versions st = fold_left update (merges (trace st)) []
  ∧ warnings st = raised (trace st)
  ∧ call_args <$> trace st = planned_calls REQUESTS timeout plan.
Proof.
  destruct (query_plan_runs w plan) as (tr & Ht & Hf & Hw & Ha).
  simpl in *. by rewrite Ht, Hf, Hw, Ha.
Qed.
End query_facts.

Section query_claims.
Context {World Exn : Type}.
Variable REQUESTS : list request_entry.
Variable get_data :
  World → list addr_t → list bytes → list bytes → float →
  World * (Exn + dict addr_t bytes).
Variable timeout : float.

Lemma get_fw_versions_state w versions extra :
  (get_fw_versions REQUESTS get_data timeout w versions extra).1
  = query_plan REQUESTS get_data timeout w
      (planner (merge_extra versions extra)).2.
Proof.
  unfold get_fw_versions. by destruct (planner (merge_extra versions extra)).
Qed.

(** Every planned invocation comes from a group of the plan, one of its
    chunks and one entry of the catalog. *)
Lemma elem_of_planned_calls plan x :
  x ∈ planned_calls REQUESTS timeout plan ↔
  ∃ i group addr_chunk brand request response,
    plan !! i = Some group ∧ addr_chunk ∈ chunks group 128
    ∧ (brand, request, response) ∈ REQUESTS
    ∧ brand_addrs brand addr_chunk ≠ []
    ∧ x = (i, brand_addrs brand addr_chunk, request, response,
           if decide (i = 0%nat) then PrimFloat.mul 2%float timeout
           else timeout).
Proof.
  unfold planned_calls. rewrite list_elem_of_bind. split.
  - intros ([i group] & Hx & Hig). apply elem_of_lookup_imap in Hig.
    destruct Hig as (i' & g' & [= -> ->] & Hl).
    apply list_elem_of_bind in Hx as (addr_chunk & Hx & Hc).
    apply list_elem_of_bind in Hx as ([[brand request] response] & Hx & Hr).
    unfold planned_request in Hx. simpl in Hx.
    destruct (decide (brand_addrs brand addr_chunk = [])) as [?|Hne];
      [by apply elem_of_nil in Hx|].
    apply list_elem_of_singleton in Hx.
    exists i', g', addr_chunk, brand, request, response. done.
  - intros (i & group & addr_chunk & brand & request & response
            & Hl & Hc & Hr & Hne & ->).
    exists (i, group). split; [|by apply elem_of_lookup_imap; eauto].
    apply list_elem_of_bind. exists addr_chunk. split; [|done].
    apply list_elem_of_bind. exists (brand, request, response).
    split; [|done]. unfold planned_request. cbn [fst snd].
    destruct (decide (brand_addrs brand addr_chunk = [])) as [?|_]; [done|].
    by apply list_elem_of_singleton.
Qed.

Lemma elem_of_brand_addrs brand addr_chunk a s :
  (a, s) ∈ brand_addrs brand addr_chunk ↔
  ∃ b, (b, a, s) ∈ addr_chunk ∧ (b = brand ∨ b = "any"%string).
Proof.
  unfold brand_addrs. rewrite list_elem_of_omap. split.
  - intros ([[b a'] s'] & Hin & Hf). case_bool_decide as Hb; [|done].
    injection Hf as -> ->. exists b. split; [done|].
    apply elem_of_cons in Hb as [?|Hb]; [by left|].
    apply list_elem_of_singleton in Hb. by right.
  - intros (b & Hin & Hb). exists (b, a, s). split; [done|].
    rewrite bool_decide_eq_true_2; [done|].
    destruct Hb as [->| ->]; [by left|].
    apply elem_of_cons. right. by apply list_elem_of_singleton.
Qed.

(** C7. The transport is invoked exactly for the groups, chunks and catalog
    entries, in loop order, whose filtered address list is not empty; each
    invocation carries that list, which holds the addresses of the chunk
    whose brand is the entry's or ["any"]. *)
Theorem get_fw_versions_filtered_calls (w : World) (versions : brand_table)
    (extra : option brand_table) :
  let st := (get_fw_versions REQUESTS get_data timeout w versions extra).1 in
  let plan := (planner (merge_extra versions extra)).2 in
  call_args <$> trace st = planned_calls REQUESTS timeout plan
  ∧ (∀ c, c ∈ trace st →
       call_addrs c ≠ []
       ∧ ∃ group addr_chunk brand,
           plan !! call_group c = Some group
           ∧ addr_chunk ∈ chunks group 128
           ∧ (brand, call_request c, call_response c) ∈ REQUESTS
           ∧ call_addrs c = brand_addrs brand addr_chunk)
  ∧ (∀ brand addr_chunk a s,
       (a, s) ∈ brand_addrs brand addr_chunk ↔
       ∃ b, (b, a, s) ∈ addr_chunk ∧ (b = brand ∨ b = "any"%string))
  ∧ (∀ i addr_chunk st' brand request response,
       brand_addrs brand addr_chunk = [] →
       query_request get_data timeout i addr_chunk st'
         (brand, request, response) = st').
Proof.
  intros st plan. subst st. rewrite get_fw_versions_state. fold plan.
  destruct (query_plan_trace REQUESTS get_data timeout w plan)
    as (_ & _ & Hargs).
  split_and!; [done| |apply elem_of_brand_addrs|].
  - intros c Hc.
    assert (call_args c ∈ planned_calls REQUESTS timeout plan) as Hin.
    { rewrite <- Hargs. apply list_elem_of_fmap. by exists c. }
    apply elem_of_planned_calls in Hin
      as (i & group & addr_chunk & brand & request & response
          & Hl & Hch & Hr & Hne & Heq).
    unfold call_args in Heq. injection Heq as -> -> -> -> _.
    split; [done|]. by exists group, addr_chunk, brand.
  - intros i addr_chunk st' brand request response Hnil.
    unfold query_request. by rewrite Hnil.
Qed.

(** C5. An invocation made while the plan group of index 0 is processed is
    given twice the timeout of an invocation made for any later group: the
    first gets [2 * timeout], the second [timeout]. *)
Theorem get_fw_versions_timeout_doubling (w : World) (versions : brand_table)
    (extra : option brand_table) (c0 c : call)
    (H0 : c0 ∈ trace (get_fw_versions REQUESTS get_data timeout w versions
                        extra).1)
    (H : c ∈ trace (get_fw_versions REQUESTS get_data timeout w versions
                      extra).1)
    (Hg0 : call_group c0 = 0%nat) (Hg : call_group c ≠ 0%nat) :
  call_timeout c0 = PrimFloat.mul 2%float timeout
  ∧ call_timeout c = timeout
  ∧ call_timeout c0 = PrimFloat.mul 2%float (call_timeout c).
Proof.
  rewrite get_fw_versions_state in H0, H.
  set (plan := (planner (merge_extra versions extra)).2) in *.
  destruct (query_plan_trace REQUESTS get_data timeout w plan)
    as (_ & _ & Hargs).
  assert (∀ x, x ∈ trace (query_plan REQUESTS get_data timeout w plan) →
               call_timeout x
               = if decide (call_group x = 0%nat)
                 then PrimFloat.mul 2%float timeout else timeout) as Ht.
  { intros x Hx.
    assert (call_args x ∈ planned_calls REQUESTS timeout plan) as Hin.
    { rewrite <- Hargs. apply list_elem_of_fmap. by exists x. }
    apply elem_of_planned_calls in Hin
      as (i & group & addr_chunk & brand & request & response
          & Hl & Hch & Hr & Hne & Heq).
    unfold call_args in Heq. by injection Heq as -> _ _ _ ->. }
  rewrite (Ht c0 H0), (Ht c H).
  rewrite decide_True by done. rewrite decide_False by done. done.
Qed.

(** C4. Whatever the transport raises is caught where it is raised: the
    loop makes every planned invocation whatever the outcomes of the earlier
    ones, logs one warning per raising invocation, and merges what the
    others returned as if the raising ones had not been made.  What a
    successful invocation returned for a key is in the result unless a later
    successful invocation returned that key too. *)
Theorem get_fw_versions_catches (w : World) (versions : brand_table)
    (extra : option brand_table) :
  let st := (get_fw_versions REQUESTS get_data timeout w versions extra).1 in
  let plan := (planner (merge_extra versions extra)).2 in
  call_args <$> trace st = planned_calls REQUESTS timeout plan
  ∧ warnings st = raised (trace st)
  ∧ fw_versions st = fold_left update (merges (trace st)) []
  ∧ (∀ pre c post data k v,
       trace st = pre ++ c :: post →
       call_result c = inr data → wf data → get data k = Some v →
       (∀ c' data', c' ∈ post → call_result c' = inr data' → k ∉ keys data') →
       get (fw_versions st) k = Some v).
Proof.
  intros st plan. subst st. rewrite get_fw_versions_state. fold plan.
  destruct (query_plan_trace REQUESTS get_data timeout w plan)
    as (Hfw & Hwarn & Hargs).
  split_and!; [done..|].
  intros pre c post data k v Htr Hres Hwf Hget Hlater.
  rewrite Hfw, Htr. unfold merges. rewrite omap_app. simpl. rewrite Hres.
  apply get_fold_update_kept; [done..|].
  apply Forall_forall. intros d Hd.
  apply list_elem_of_omap in Hd as (c' & Hc' & Hr').
  destruct (call_result c') as [|data'] eqn:Hres'; [done|].
  injection Hr' as <-. by eapply Hlater.
Qed.

(** C8. The accumulated observations have unique keys, and the observation
    of a key is the value that the last successful invocation returning the
    key gave to it: a later result overwrites an earlier one. *)
Theorem get_fw_versions_last_write (w : World) (versions : brand_table)
    (extra : option brand_table)
    (Hwf : Forall wf (merges (trace (get_fw_versions REQUESTS get_data
                                       timeout w versions extra).1))) :
  let st := (get_fw_versions REQUESTS get_data timeout w versions extra).1 in
  wf (fw_versions st)
  ∧ ∀ k, get (fw_versions st) k
         = last_merge_with k (merges (trace st)) ≫= (fun d => get d k).
Proof.
  intros st. subst st. rewrite get_fw_versions_state in *.
  set (plan := (planner (merge_extra versions extra)).2) in *.
  destruct (query_plan_trace REQUESTS get_data timeout w plan)
    as (Hfw & _ & _).
  rewrite Hfw. split.
  - apply wf_fold_update. apply NoDup_nil_2.
  - intros k. rewrite get_fold_update. unfold last_merge_with.
    destruct (last _) as [d|] eqn:Hlast; [|done]. simpl.
    apply get_reverse_wf. apply last_Some_elem_of in Hlast.
    apply list_elem_of_filter in Hlast as [_ Hd].
    by apply (proj1 (Forall_forall _ _) Hwf).
Qed.
End query_claims.

(** ** The CarFw encoding between discovery and matching *)

Lemma make_car_fw_inr ecu_types a s v f :
  make_car_fw ecu_types ((a, s), v) = inr f →
  ∃ e, get ecu_types (Pair a s) = Some e
       ∧ f = {| ecu := e; fwVersion := v; address := a;
                subAddress := default 0 s |}.
Proof.
  unfold make_car_fw. simpl.
  destruct (get ecu_types (Pair a s)) as [e|]; [|done].
  destruct (is_uint 32 a); [|done].
  destruct s as [z|]; simpl.
  - destruct (is_uint 8 z); [|done]. intros [= <-]. by exists e.
  - intros [= <-]. by exists e.
Qed.

Lemma build_car_fw_inr ecu_types (obs : dict addr_t bytes) car_fw :
  build_car_fw ecu_types obs = inr car_fw →
  Forall2 (fun item f => make_car_fw ecu_types item = inr f) obs car_fw.
Proof.
  revert car_fw. induction obs as [|item obs IH]; intros car_fw; simpl.
  - intros [= <-]. constructor.
  - destruct (make_car_fw ecu_types item) as [|f] eqn:Hf; [done|].
    destruct (build_car_fw ecu_types obs) as [|fs]; [done|].
    intros [= <-]. constructor; [done|]. by apply IH.
Qed.

Lemma decode_sub_addr_encoded e v a (s : option Z) :
  s ≠ Some 0 →
  decode_sub_addr {| ecu := e; fwVersion := v; address := a;
                     subAddress := default 0 s |} = s.
Proof.
  intros Hs. unfold decode_sub_addr. cbn [subAddress].
  destruct s as [z|]; cbn [default from_option id].
  - destruct (decide (z ≠ 0)) as [_|Hn]; [done|].
    destruct Hn. congruence.
  - destruct (decide (0 ≠ 0)) as [Hn|_]; done.
Qed.

Lemma build_fw_versions_dict_round_trip ecu_types (obs : dict addr_t bytes)
    car_fw d :
  (∀ a, (a, Some 0) ∉ keys obs) →
  Forall2 (fun item f => make_car_fw ecu_types item = inr f) obs car_fw →
  fold_left
    (fun d fw => set d (address fw, decode_sub_addr fw) (fwVersion fw))
    car_fw d
  = update d obs.
Proof.
  intros Hz HF. revert d.
  induction HF as [|[[a s] v] f obs car_fw Hf _ IH]; intros d; [done|].
  apply make_car_fw_inr in Hf as (e & _ & ->).
  unfold update in *. cbn [fold_left].
  rewrite <- IH.
  - simpl. rewrite decode_sub_addr_encoded; [done|].
    intros ->. apply (Hz a). apply elem_of_cons. by left.
  - intros a' Hin. apply (Hz a'). apply elem_of_cons. by right.
Qed.

(** C10. [get_fw_versions] writes the sub-address of an observation key
    into the record only when it is not [None], which leaves the field at 0
    for [None]; [match_fw_to_car] reads a field of 0 back as [None].  A key
    whose sub-address is [None] or not 0 comes back as it was, and so does a
    whole set of observations without a sub-address 0; the record of a key
    with sub-address 0 is the record of the key without sub-address, and the
    matcher files it under that key. *)
Theorem sub_address_zero_is_none :
  (∀ ecu_types a s v e,
     get ecu_types (Pair a s) = Some e →
     is_uint 32 a = true → (∀ z, s = Some z → is_uint 8 z = true) →
     make_car_fw ecu_types ((a, s), v)
     = inr {| ecu := e; fwVersion := v; address := a;
              subAddress := default 0 s |})
  ∧ (∀ f, decode_sub_addr f
          = if decide (subAddress f = 0) then None else Some (subAddress f))
  ∧ (∀ e v a s,
       s ≠ Some 0 →
       decode_sub_addr {| ecu := e; fwVersion := v; address := a;
                          subAddress := default 0 s |} = s)
  ∧ (∀ ecu_types (obs : dict addr_t bytes) car_fw,
       wf obs → (∀ a, (a, Some 0) ∉ keys obs) →
       build_car_fw ecu_types obs = inr car_fw →
       ∀ k, get (build_fw_versions_dict car_fw) k = get obs k)
  ∧ (∀ ecu_types a v f,
       make_car_fw ecu_types ((a, Some 0), v) = inr f →
       f = {| ecu := ecu f; fwVersion := v; address := a; subAddress := 0 |}
       ∧ build_fw_versions_dict [f] = [((a, None), v)]).
Proof.
  split_and!.
  - intros ecu_types a s v e He Ha Hs. unfold make_car_fw. simpl.
    rewrite He, Ha. destruct s as [z|]; simpl; [|done].
    by rewrite (Hs z).
  - intros f. unfold decode_sub_addr.
    destruct (decide (subAddress f = 0)) as [Hz|Hz];
      destruct (decide (subAddress f ≠ 0)); done.
  - intros. by apply decode_sub_addr_encoded.
  - intros ecu_types obs car_fw Hwf Hz Hb k.
    apply build_car_fw_inr in Hb. unfold build_fw_versions_dict.
    rewrite (build_fw_versions_dict_round_trip _ _ _ _ Hz Hb).
    rewrite get_update, get_reverse_wf by done. simpl.
    by destruct (get obs k).
  - intros ecu_types a v f Hf.
    apply make_car_fw_inr in Hf as (e & _ & ->). done.
Qed.

(** ** The statements at concrete inputs *)

Ltac by_evaluation := apply (bool_decide_unpack _); vm_compute; exact I.

Lemma planner_partition_witness :
  ∃ parallel singles,
    (planner Examples.versions).2 = parallel :: ((fun a => [a]) <$> singles)
    ∧ NoDup parallel ∧ NoDup singles
    ∧ (∀ x, x ∈ parallel ↔ x ∈ table_addrs Examples.versions ∧ x.2 = None)
    ∧ (∀ x, x ∈ singles ↔ x ∈ table_addrs Examples.versions ∧ x.2 ≠ None)
    ∧ (∀ x, x ∈ table_addrs Examples.versions →
            length (groups_of (planner Examples.versions).2 x) = 1%nat).
Proof. exact (planner_partition Examples.versions None). Defined.

Lemma match_fw_to_car_exact_witness :
  "HONDA CIVIC"%string ∈
    match_fw_to_car Examples.TOYOTA (Examples.one_model "HONDA CIVIC" 0x7e0)
      [Examples.observed 0x7e0 0 Examples.v1]
  ∧ "HONDA CIVIC"%string ∉
      match_fw_to_car Examples.TOYOTA (Examples.one_model "HONDA CIVIC" 0x7e0)
        [Examples.observed 0x7e0 0 Examples.v3].
Proof.
  exact (proj2 (match_fw_to_car_exact Examples.TOYOTA)
           "HONDA CIVIC"%string 0x7e0 unknown).
Defined.

Lemma match_fw_to_car_essential_witness :
  "TOYOTA PRIUS"%string ∉
    match_fw_to_car Examples.TOYOTA Examples.FW_VERSIONS
      [Examples.observed 0x7e0 0 Examples.v1].
Proof.
  apply (proj1 (proj2 (match_fw_to_car_essential Examples.TOYOTA
           Examples.FW_VERSIONS [Examples.observed 0x7e0 0 Examples.v1]
           "TOYOTA PRIUS" [((esp, 0x7b0, None), [Examples.v1])]
           esp 0x7b0 None [Examples.v1]
           ltac:(by_evaluation) ltac:(by_evaluation) ltac:(by_evaluation)
           ltac:(vm_compute; reflexivity)))).
  - by_evaluation.
  - vm_compute. reflexivity.
Defined.

Lemma get_fw_versions_filtered_calls_witness :
  call_args <$> trace Examples.run.1
  = planned_calls Examples.REQUESTS 0.125%float (planner Examples.versions).2.
Proof.
  exact (proj1 (get_fw_versions_filtered_calls Examples.REQUESTS
                  Examples.transport 0.125%float 0%nat Examples.versions None)).
Defined.

Lemma get_fw_versions_timeout_doubling_witness :
  call_timeout Examples.call0
  = PrimFloat.mul 2%float (call_timeout Examples.call4).
Proof.
  apply (get_fw_versions_timeout_doubling Examples.REQUESTS
           Examples.transport 0.125%float 0%nat Examples.versions None
           Examples.call0 Examples.call4).
  - apply (list_elem_of_lookup_2 _ 0%nat). vm_compute. reflexivity.
  - apply (list_elem_of_lookup_2 _ 4%nat). vm_compute. reflexivity.
  - reflexivity.
  - vm_compute. discriminate.
Defined.

Lemma get_fw_versions_catches_witness :
  warnings Examples.run.1 = ["timeout"; "timeout"]%string
  ∧ get (fw_versions Examples.run.1) (0x7e0, Some 1) = Some [7].
Proof.
  destruct (get_fw_versions_catches Examples.REQUESTS Examples.transport
              0.125%float 0%nat Examples.versions None)
    as (_ & Hwarn & _ & Hkept).
  unfold Examples.run. split.
  - rewrite Hwarn. vm_compute. reflexivity.
  - apply (Hkept (take 7 (trace Examples.run.1)) Examples.call7
             [] [((0x7e0, Some 1), [7])]).
    + vm_compute. reflexivity.
    + reflexivity.
    + by_evaluation.
    + vm_compute. reflexivity.
    + intros c' data' Hc'. by apply elem_of_nil in Hc'.
Defined.

Lemma get_fw_versions_last_write_witness :
  let st := Examples.run.1 in
  wf (fw_versions st)
  ∧ ∀ k, get (fw_versions st) k
         = last_merge_with k (merges (trace st)) ≫= (fun d => get d k).
Proof.
  apply (get_fw_versions_last_write Examples.REQUESTS Examples.transport
           0.125%float 0%nat Examples.versions None).
  by_evaluation.
Defined.

Lemma sub_address_zero_is_none_witness :
  make_car_fw Examples.ecu_types ((0x750, Some 0x6d), Examples.v1)
  = inr {| ecu := fwdCamera; fwVersion := Examples.v1; address := 0x750;
           subAddress := 0x6d |}
  ∧ build_fw_versions_dict
      [{| ecu := eps; fwVersion := Examples.v2; address := 0x750;
          subAddress := 0 |}]
    = [((0x750, None), Examples.v2)].
Proof.
  destruct sub_address_zero_is_none as (Henc & _ & _ & _ & Hzero).
  split.
  - apply (Henc Examples.ecu_types 0x750 (Some 0x6d) Examples.v1 fwdCamera).
    + vm_compute. reflexivity.
    + vm_compute. reflexivity.
    + intros z [= <-]. vm_compute. reflexivity.
  - apply (Hzero Examples.ecu_types 0x750 Examples.v2). vm_compute. reflexivity.
Defined.

(** * Further properties of the code

    ** The helpers [chunks] and [p16], and the catalog *)

(** X1. For a chunk size above 0, the chunks of a list are its consecutive
    slices: concatenated they give the list back, none is empty, every one
    but the last has exactly [n] elements and the last at most [n]; a list
    has no chunk exactly when it is empty. *)
Theorem chunks_slices {A : Type} (l : list A) (n : nat) (Hn : (0 < n)%nat) :
  concat (chunks l n) = l
  ∧ (chunks l n = [] ↔ l = [])
  ∧ ∀ j c, chunks l n !! j = Some c →
      c = take n (drop (j * n) l)
      ∧ (0 < length c ≤ n)%nat
      ∧ ((S j < length (chunks l n))%nat → length c = n).
Proof.
  destruct (chunks_spec l n Hn) as [Hcat Hsize]. split_and!; [done| |].
  - split.
    + intros Hnil. by rewrite <- Hcat, Hnil.
    + intros ->. unfold chunks. cbn [length].
      by rewrite Nat.add_0_l, Nat.div_small by lia.
  - intros j c Hj.
    assert (c ∈ chunks l n) as Hin by (apply list_elem_of_lookup; eauto).
    pose proof (proj1 (Forall_forall _ _) Hsize c Hin) as Hc.
    unfold chunks in *. rewrite length_fmap, length_seq.
    apply list_lookup_fmap_Some in Hj as (j' & -> & Hj').
    apply lookup_seq in Hj' as [-> Hlt]. simpl in *.
    split_and!; [done|lia..|].
    intros Hlast. rewrite length_take, length_drop.
    pose proof (Nat.div_mod_eq (length l + n - 1) n) as Hdiv.
    pose proof (Nat.mod_upper_bound (length l + n - 1) n ltac:(lia)) as Hmod.
    set (k := ((length l + n - 1) / n)%nat) in *.
    assert ((j + 2) * n ≤ k * n)%nat by (apply Nat.mul_le_mono_r; lia).
    nia.
Qed.

Lemma chunks_slices_witness :
  concat (chunks [1; 2; 3; 4; 5] 2) = [1; 2; 3; 4; 5]
  ∧ (chunks [1; 2; 3; 4; 5] 2 = [] ↔ [1; 2; 3; 4; 5] = [])
  ∧ ∀ j c, chunks [1; 2; 3; 4; 5] 2 !! j = Some c →
      c = take 2 (drop (j * 2) [1; 2; 3; 4; 5])
      ∧ (0 < length c ≤ 2)%nat
      ∧ ((S j < length (chunks [1; 2; 3; 4; 5] 2))%nat → length c = 2%nat).
Proof. apply (chunks_slices [1; 2; 3; 4; 5] 2). lia. Defined.

(** X2. For a value of 16 bits, [p16] gives two bytes, the high one first,
    from which the value is recovered; distinct values give distinct byte
    pairs. *)
Theorem p16_big_endian (val : Z) (Hval : 0 ≤ val < 65536) :
  (∃ hi lo, Catalog.p16 val = [hi; lo]
            ∧ 0 ≤ hi < 256 ∧ 0 ≤ lo < 256 ∧ 256 * hi + lo = val)
  ∧ ∀ val', 0 ≤ val' < 65536 → Catalog.p16 val' = Catalog.p16 val → val' = val.
Proof.
  assert (∀ v, 0 ≤ v < 65536 →
               Z.land (Z.shiftr v 8) 0xff = v / 256
               ∧ Z.land v 0xff = v mod 256) as Hbytes.
  { intros v Hv. change 0xff with (Z.ones 8).
    rewrite !Z.land_ones, Z.shiftr_div_pow2 by lia.
    change (2 ^ 8) with 256. split; [|done].
    apply Z.mod_small. split; [apply Z.div_pos; lia|].
    apply Z.div_lt_upper_bound; lia. }
  unfold Catalog.p16. split.
  - destruct (Hbytes val Hval) as [-> ->]. eexists _, _. split; [done|].
    pose proof (Z.div_mod val 256 ltac:(lia)).
    pose proof (Z.mod_pos_bound val 256 ltac:(lia)).
    assert (0 ≤ val / 256) by (apply Z.div_pos; lia).
    assert (val / 256 < 256) by (apply Z.div_lt_upper_bound; lia).
    lia.
  - intros val' Hval'.
    destruct (Hbytes val Hval) as [-> ->].
    destruct (Hbytes val' Hval') as [-> ->].
    intros [= Hhi Hlo].
    rewrite (Z.div_mod val 256), (Z.div_mod val' 256) by lia. lia.
Qed.

Lemma p16_big_endian_witness :
  ∃ hi lo, Catalog.p16 0xf181 = [hi; lo]
           ∧ 0 ≤ hi < 256 ∧ 0 ≤ lo < 256 ∧ 256 * hi + lo = 0xf181.
Proof. apply (p16_big_endian 0xf181). lia. Defined.

(** X3. Whatever the values of the [uds] constants, every entry of the
    catalog has one response prefix per request, and the prefix of a step
    starts with the first byte of the step's request plus [0x40]. *)
Theorem REQUESTS_responses_match_requests (uds : UdsConstants) :
  Forall (fun r : request_entry =>
            Forall2 (fun request response : bytes =>
                       ∃ sid rest, request = sid :: rest
                                   ∧ head response = Some (sid + 0x40))
                    r.1.2 r.2)
         (Catalog.REQUESTS uds).
Proof.
  unfold Catalog.REQUESTS.
  repeat (constructor; cbn [fst snd]);
    eexists _, _; (split; [reflexivity|reflexivity]).
Qed.

(** ** The observation dictionary of [match_fw_to_car] *)

Lemma wf_build_fw_versions_dict (fw_versions : list CarFw) :
  wf (build_fw_versions_dict fw_versions).
Proof.
  unfold build_fw_versions_dict.
  assert (∀ (d : dict addr_t bytes), wf d →
            wf (fold_left
                  (fun d fw =>
                     set d (address fw, decode_sub_addr fw) (fwVersion fw))
                  fw_versions d)) as Hfold.
  { induction fw_versions as [|fw fws IH]; intros d Hd; [done|].
    simpl. apply IH. by apply wf_set. }
  apply Hfold. apply NoDup_nil_2.
Qed.

(** X4. The dictionary that [match_fw_to_car] builds from the records has
    unique keys, and holds for a key the version of the last record whose
    address and decoded sub-address are that key: of two records for one
    ECU, the later one counts. *)
Theorem fw_versions_dict_last_record (fw_versions : list CarFw) :
  wf (build_fw_versions_dict fw_versions)
  ∧ ∀ k, get (build_fw_versions_dict fw_versions) k
         = fwVersion <$>
             last (filter (fun fw => (address fw, decode_sub_addr fw) = k)
                          fw_versions).
Proof.
  split; [apply wf_build_fw_versions_dict|].
  intros k. unfold build_fw_versions_dict.
  induction fw_versions as [|fw fws IH] using rev_ind; [done|].
  rewrite fold_left_app, filter_app. simpl.
  rewrite get_set, filter_cons, filter_nil. cbv beta.
  destruct (decide ((address fw, decode_sub_addr fw) = k)) as [Hk|Hk].
  - by rewrite decide_True, last_snoc.
  - by rewrite decide_False, app_nil_r.
Qed.

(** ** Further properties of the matcher *)

Section matcher_further.
Variable TOYOTA : ToyotaCAR.

Lemma entry_invalid_ext (d1 d2 : dict addr_t bytes) candidate
    (e : ecu_key * list bytes) :
  get d1 (e.1.1.2, e.1.2) = get d2 (e.1.1.2, e.1.2) →
  entry_invalid TOYOTA d1 candidate e = entry_invalid TOYOTA d2 candidate e.
Proof.
  destruct e as [[[ecu_type a] s] expected]. simpl. intros Hget.
  unfold entry_invalid. by rewrite Hget.
Qed.

Lemma collect_invalid_ext (FW_VERSIONS : fw_table)
    (d1 d2 : dict addr_t bytes) invalid :
  agree_on FW_VERSIONS d1 d2 →
  collect_invalid TOYOTA d1 FW_VERSIONS invalid
  = collect_invalid TOYOTA d2 FW_VERSIONS invalid.
Proof.
  unfold agree_on. intros Hag. revert invalid.
  induction Hag as [|[candidate fws] FW Hm _ IH]; intros invalid; [done|].
  assert (fws_invalid TOYOTA d1 candidate fws
          = fws_invalid TOYOTA d2 candidate fws) as Hfws.
  { simpl in Hm. induction Hm as [|e fws He _ IHe]; [done|].
    simpl. by rewrite (entry_invalid_ext d1 d2 candidate e He), IHe. }
  simpl. by rewrite Hfws, IH.
Qed.

(** Membership in the result, whatever the keys of the table. *)
Lemma elem_of_match_observations (FW_VERSIONS : fw_table)
    (d : dict addr_t bytes) candidate :
  candidate ∈ match_observations TOYOTA FW_VERSIONS d ↔
  candidate ∈ keys FW_VERSIONS
  ∧ ∀ fws e, (candidate, fws) ∈ FW_VERSIONS → e ∈ fws →
             entry_invalid TOYOTA d candidate e = false.
Proof.
  unfold match_observations.
  rewrite elem_of_difference, !elem_of_list_to_set, elem_of_collect_invalid.
  split; intros [Hk Hno]; (split; [done|]).
  - intros fws e Hc He. apply not_true_iff_false. intros Hinv.
    apply Hno. right. exists fws. split; [done|].
    apply fws_invalid_true. eauto.
  - intros [Hnil|(fws & Hc & Hinv)]; [by apply elem_of_nil in Hnil|].
    apply fws_invalid_true in Hinv as (e & He & Hinv).
    by rewrite (Hno fws e Hc He) in Hinv.
Qed.

(** X5. The candidate set depends on the observations only through the
    keys that the entries of the table name: two lists of records whose
    dictionaries agree on these keys give the same candidates, so records
    for addresses that no fingerprint mentions change nothing. *)
Theorem match_fw_to_car_local (FW_VERSIONS : fw_table)
    (fw_versions fw_versions' : list CarFw)
    (Hagree : agree_on FW_VERSIONS (build_fw_versions_dict fw_versions)
                (build_fw_versions_dict fw_versions')) :
  match_fw_to_car TOYOTA FW_VERSIONS fw_versions
  = match_fw_to_car TOYOTA FW_VERSIONS fw_versions'.
Proof.
  unfold match_fw_to_car. cbn zeta.
  by rewrite (collect_invalid_ext FW_VERSIONS _ _ [] Hagree).
Qed.

(** X6. With no record at all, a model of the table is a candidate exactly
    when every entry of its fingerprint tolerates a missing observation: its
    type is not essential, or an allow-list exception covers it. *)
Theorem match_fw_to_car_nothing_observed (FW_VERSIONS : fw_table)
    (candidate : string) (fws : fingerprint)
    (Hwf : wf FW_VERSIONS) (Hc : (candidate, fws) ∈ FW_VERSIONS) :
  candidate ∈ match_fw_to_car TOYOTA FW_VERSIONS [] ↔
  Forall (fun e : ecu_key * list bytes =>
            tolerates_missing TOYOTA candidate e.1.1.1 = true) fws.
Proof.
  rewrite (elem_of_match_fw_to_car TOYOTA _ _ _ _ Hwf Hc), fws_invalid_false.
  change (build_fw_versions_dict []) with ([] : dict addr_t bytes).
  rewrite Forall_forall. unfold tolerates_missing.
  split; intros Hall [[[ecu_type a] s] expected] He;
    specialize (Hall _ He);
    pose proof (entry_invalid_missing TOYOTA [] candidate ecu_type a s
                  expected eq_refl) as Hm;
    cbn [fst snd] in *.
  - apply negb_false_iff. etrans; [symmetry; exact Hm|exact Hall].
  - etrans; [exact Hm|]. by apply negb_false_iff.
Qed.

(** X7. The candidate set does not depend on the order in which the table
    lists its models, nor on the order of the entries inside a
    fingerprint. *)
Theorem match_fw_to_car_order (FW_VERSIONS FW0 FW_VERSIONS' : fw_table)
    (fw_versions : list CarFw)
    (Hmodels : FW_VERSIONS ≡ₚ FW0)
    (Hentries : entries_reordered FW0 FW_VERSIONS') :
  match_fw_to_car TOYOTA FW_VERSIONS fw_versions
  = match_fw_to_car TOYOTA FW_VERSIONS' fw_versions.
Proof.
  change (match_observations TOYOTA FW_VERSIONS
            (build_fw_versions_dict fw_versions)
          = match_observations TOYOTA FW_VERSIONS'
              (build_fw_versions_dict fw_versions)).
  set (d := build_fw_versions_dict fw_versions).
  assert (∀ c e, (∃ fws, (c, fws) ∈ FW0 ∧ e ∈ fws)
                 ↔ (∃ fws, (c, fws) ∈ FW_VERSIONS' ∧ e ∈ fws)) as Hent.
  { clear Hmodels. intros c e. unfold entries_reordered in Hentries.
    induction Hentries as [|[c1 f1] [c2 f2] FW1 FW2 [Hn Hp] _ IH].
    - split; intros (fws & Hin & _); by apply elem_of_nil in Hin.
    - simpl in Hn, Hp. subst c2. split; intros (fws & Hin & He);
        apply elem_of_cons in Hin as [[= -> ->]|Hin].
      + exists f2. split; [apply elem_of_cons; by left|by rewrite <- Hp].
      + destruct (proj1 IH) as (fws' & ? & ?); [by eauto|].
        exists fws'. split; [apply elem_of_cons; by right|done].
      + exists f1. split; [apply elem_of_cons; by left|by rewrite Hp].
      + destruct (proj2 IH) as (fws' & ? & ?); [by eauto|].
        exists fws'. split; [apply elem_of_cons; by right|done]. }
  assert (keys FW0 = keys FW_VERSIONS') as Hkeys.
  { clear Hmodels Hent. unfold entries_reordered in Hentries. unfold keys.
    induction Hentries as [|[c1 f1] [c2 f2] FW1 FW2 [Hn _] _ IH]; [done|].
    rewrite !fmap_cons. simpl in *. by rewrite Hn, IH. }
  apply set_eq. intros c. rewrite !elem_of_match_observations.
  assert (c ∈ keys FW_VERSIONS ↔ c ∈ keys FW_VERSIONS') as ->.
  { rewrite <- Hkeys. unfold keys. by rewrite Hmodels. }
  split; intros [Hk Hall]; (split; [done|]); intros fws e Hc He.
  - destruct (proj2 (Hent c e)) as (fws' & Hc' & He'); [by eauto|].
    apply (Hall fws' e); [by rewrite Hmodels|done].
  - rewrite Hmodels in Hc.
    destruct (proj1 (Hent c e)) as (fws' & Hc' & He'); [by eauto|].
    by apply (Hall fws' e).
Qed.

(** X8. Two models that expect, at one key, version sets with nothing in
    common are never both candidates once that key is observed. *)
Theorem match_fw_to_car_separates (FW_VERSIONS : fw_table)
    (fw_versions : list CarFw) (m1 m2 : string) (fws1 fws2 : fingerprint)
    (e1 e2 : Ecu) (a : Z) (s : option Z) (x1 x2 : list bytes) (v : bytes)
    (Hwf : wf FW_VERSIONS)
    (H1 : (m1, fws1) ∈ FW_VERSIONS) (H2 : (m2, fws2) ∈ FW_VERSIONS)
    (He1 : ((e1, a, s), x1) ∈ fws1) (He2 : ((e2, a, s), x2) ∈ fws2)
    (Hdisjoint : Forall (fun v => v ∉ x2) x1)
    (Hobs : get (build_fw_versions_dict fw_versions) (a, s) = Some v) :
  ¬ (m1 ∈ match_fw_to_car TOYOTA FW_VERSIONS fw_versions
     ∧ m2 ∈ match_fw_to_car TOYOTA FW_VERSIONS fw_versions).
Proof.
  rewrite (elem_of_match_fw_to_car TOYOTA _ _ _ _ Hwf H1).
  rewrite (elem_of_match_fw_to_car TOYOTA _ _ _ _ Hwf H2).
  rewrite !fws_invalid_false. intros [Hok1 Hok2].
  specialize (Hok1 _ He1). specialize (Hok2 _ He2).
  rewrite (entry_invalid_found TOYOTA _ _ _ _ _ _ v Hobs) in Hok1.
  rewrite (entry_invalid_found TOYOTA _ _ _ _ _ _ v Hobs) in Hok2.
  apply bool_decide_eq_false in Hok1, Hok2.
  apply dec_stable in Hok1, Hok2.
  by apply (proj1 (Forall_forall _ _) Hdisjoint v Hok1).
Qed.
End matcher_further.

Lemma match_fw_to_car_local_witness :
  match_fw_to_car Examples.TOYOTA Examples.FW_VERSIONS
    [Examples.observed 0x7e0 0 Examples.v1]
  = match_fw_to_car Examples.TOYOTA Examples.FW_VERSIONS
      [Examples.observed 0x7e0 0 Examples.v1;
       Examples.observed 0x123 0x45 Examples.v3].
Proof.
  apply (match_fw_to_car_local Examples.TOYOTA Examples.FW_VERSIONS).
  by_evaluation.
Defined.

Lemma match_fw_to_car_nothing_observed_witness :
  "TOYOTA RAV4"%string ∈
    match_fw_to_car Examples.TOYOTA Examples.FW_VERSIONS [].
Proof.
  apply (match_fw_to_car_nothing_observed Examples.TOYOTA
           Examples.FW_VERSIONS "TOYOTA RAV4"
           [((esp, 0x7b0, None), [Examples.v1])]).
  - by_evaluation.
  - by_evaluation.
  - by_evaluation.
Defined.

Lemma match_fw_to_car_order_witness :
  match_fw_to_car Examples.TOYOTA Examples.FW_VERSIONS
    [Examples.observed 0x7e0 0 Examples.v1]
  = match_fw_to_car Examples.TOYOTA MoreExamples.FW_VERSIONS_reordered
      [Examples.observed 0x7e0 0 Examples.v1].
Proof.
  assert (Examples.FW_VERSIONS ≡ₚ MoreExamples.FW_VERSIONS_swapped) as Hm.
  { apply perm_swap. }
  assert (entries_reordered MoreExamples.FW_VERSIONS_swapped
            MoreExamples.FW_VERSIONS_reordered) as He.
  { unfold entries_reordered, MoreExamples.FW_VERSIONS_swapped,
      MoreExamples.FW_VERSIONS_reordered.
    repeat (constructor; cbn [fst snd]). }
  exact (match_fw_to_car_order Examples.TOYOTA Examples.FW_VERSIONS
           MoreExamples.FW_VERSIONS_swapped MoreExamples.FW_VERSIONS_reordered
           [Examples.observed 0x7e0 0 Examples.v1] Hm He).
Defined.

Lemma match_fw_to_car_separates_witness :
  ¬ ("A"%string ∈ match_fw_to_car Examples.TOYOTA MoreExamples.two_models
                    [Examples.observed 0x700 0 [1; 2]]
     ∧ "B"%string ∈ match_fw_to_car Examples.TOYOTA MoreExamples.two_models
                      [Examples.observed 0x700 0 [1; 2]]).
Proof.
  apply (match_fw_to_car_separates Examples.TOYOTA MoreExamples.two_models
           [Examples.observed 0x700 0 [1; 2]] "A" "B"
           [((engine, 0x700, None), [[1; 2]])]
           [((engine, 0x700, None), [[3; 4]])]
           engine engine 0x700 None [[1; 2]] [[3; 4]] [1; 2]).
  - by_evaluation.
  - by_evaluation.
  - by_evaluation.
  - by_evaluation.
  - by_evaluation.
  - by_evaluation.
  - vm_compute. reflexivity.
Defined.

(** ** Further properties of the planner *)

(** X9. When the table, the extra table merged in, has no fingerprint key,
    the plan is the empty parallel group alone, the transport is never
    invoked and the result is the empty list. *)
Theorem get_fw_versions_nothing_to_probe {World Exn : Type}
    (REQUESTS : list request_entry)
    (get_data : World → list addr_t → list bytes → list bytes → float →
                World * (Exn + dict addr_t bytes))
    (timeout : float) (w : World) (versions : brand_table)
    (extra : option brand_table)
    (Hempty : table_keys (merge_extra versions extra) = []) :
  (planner (merge_extra versions extra)).2 = [[]]
  ∧ get_fw_versions REQUESTS get_data timeout w versions extra
    = (mkQuery w [] [] [], inr []).
Proof.
  assert (planner (merge_extra versions extra) = ([], [[]])) as Hplan.
  { unfold planner. by rewrite planner_steps, Hempty. }
  split; [by rewrite Hplan|].
  unfold get_fw_versions. by rewrite Hplan.
Qed.

Lemma get_fw_versions_nothing_to_probe_witness :
  get_fw_versions Examples.REQUESTS Examples.transport 0.125%float 0%nat
    MoreExamples.no_keys None
  = (mkQuery 0%nat [] [] [], inr []).
Proof.
  apply (get_fw_versions_nothing_to_probe Examples.REQUESTS
           Examples.transport 0.125%float 0%nat MoreExamples.no_keys None).
  reflexivity.
Defined.

Lemma append_new_first_occurrences {A : Type} `{EqDecision A}
    (acc l : list A) :
  append_new acc l = acc ++ filter (fun y => y ∉ acc) (first_occurrences l).
Proof.
  unfold append_new. revert acc.
  induction l as [|x l IH]; intros acc; simpl; [by rewrite app_nil_r|].
  rewrite IH, filter_cons, list_filter_filter.
  destruct (decide (x ∈ acc)) as [Hin|Hout].
  - rewrite decide_False by auto. f_equal. apply list_filter_iff.
    intros y. split; [|by intros [? _]].
    intros Hy. split; [done|]. by intros ->.
  - rewrite decide_True by done. rewrite <- app_assoc. simpl. do 2 f_equal.
    apply list_filter_iff. intros y.
    rewrite not_elem_of_app, list_elem_of_singleton. done.
Qed.

Lemma first_occurrences_append_new {A : Type} `{EqDecision A} (l : list A) :
  append_new [] l = first_occurrences l.
Proof.
  rewrite append_new_first_occurrences. simpl.
  induction (first_occurrences l) as [|x l' IH]; [done|].
  rewrite filter_cons, decide_True by apply not_elem_of_nil. by rewrite IH.
Qed.

(** The two lists of the planner, as accumulations over the tagged
    addresses of the visited keys. *)
Lemma planner_fold_order (l : list (string * ecu_key)) st (S : list baddr_t) :
  addrs st = (fun a => [a]) <$> S →
  parallel_addrs (fold_left plan_step l st)
  = append_new (parallel_addrs st)
      (filter (fun x : baddr_t => x.2 = None) (tagged_addr <$> l))
  ∧ addrs (fold_left plan_step l st)
    = (fun a => [a]) <$>
        append_new S
          (filter (fun x : baddr_t => x.2 ≠ None) (tagged_addr <$> l)).
Proof.
  revert st S. induction l as [|[brand [[e a] [s|]]] l IH]; intros st S HS.
  - done.
  - cbn [fold_left]. destruct (plan_step_Some st brand e a s) as [Hpar Had].
    rewrite fmap_cons, !filter_cons.
    change (tagged_addr (brand, (e, a, Some s))) with (brand, a, Some s).
    cbn [snd]. rewrite decide_False by done. rewrite decide_True by done.
    destruct (IH (plan_step st (brand, (e, a, Some s)))
                (if decide ((brand, a, Some s) ∈ S) then S
                 else S ++ [(brand, a, Some s)])) as [IH1 IH2].
    { rewrite Had, HS. clear Had.
      destruct (decide ([(brand, a, Some s)] ∈ (fun a0 : baddr_t => [a0]) <$> S))
        as [Hin|Hout].
      - rewrite singleton_elem_of in Hin. by rewrite decide_True.
      - rewrite singleton_elem_of in Hout. rewrite decide_False by done.
        by rewrite fmap_app. }
    split; [etrans; [exact IH1|by rewrite Hpar]|exact IH2].
  - cbn [fold_left]. destruct (plan_step_None st brand e a) as [Had Hpar].
    rewrite fmap_cons, !filter_cons.
    change (tagged_addr (brand, (e, a, None))) with (brand, a, @None Z).
    cbn [snd]. rewrite decide_True by done. rewrite decide_False by auto.
    destruct (IH (plan_step st (brand, (e, a, None))) S) as [IH1 IH2].
    { by rewrite Had. }
    split; [etrans; [exact IH1|by rewrite Hpar]|exact IH2].
Qed.

(** X10. The plan lists the tagged addresses in the order in which the
    table first names them: the parallel group holds those without
    sub-address in that order, and the singleton groups follow in that
    order. *)
Theorem planner_table_order (table : brand_table) :
  (planner table).2
  = first_occurrences
      (filter (fun x : baddr_t => x.2 = None) (table_addrs table))
    :: ((fun a => [a]) <$>
          first_occurrences
            (filter (fun x : baddr_t => x.2 ≠ None) (table_addrs table))).
Proof.
  unfold planner. cbn [snd]. rewrite planner_steps.
  destruct (planner_fold_order (table_keys table) (mkPlan [] [] []) [])
    as [-> ->]; [done|].
  cbn [parallel_addrs]. unfold table_addrs.
  by rewrite !first_occurrences_append_new.
Qed.

Lemma wf_fold_set {K V A : Type} `{EqDecision K} (f : A → K) (g : A → V)
    (l : list A) (d : dict K V) :
  wf d → wf (fold_left (fun d x => set d (f x) (g x)) l d).
Proof.
  revert d. induction l as [|x l IH]; intros d Hd; [done|].
  simpl. apply IH. by apply wf_set.
Qed.

(** The planner records a type for exactly the pairs of the table. *)
Lemma planner_typed (table : brand_table) a s :
  is_Some (get (planner table).1 (Pair a s))
  ↔ (a, s) ∈ untagged <$> table_addrs table.
Proof.
  unfold planner. cbn [fst]. rewrite planner_steps.
  destruct (planner_ecu_types_fold (table_keys table) (mkPlan [] [] []))
    as [-> _].
  { intros brand a' s' Hin. by apply elem_of_nil in Hin. }
  rewrite get_ecu_types_fold. cbn [ecu_types get].
  assert (is_Some (last (types_of (table_keys table) (a, s)))
          ↔ (a, s) ∈ untagged <$> table_addrs table) as <-.
  { rewrite last_is_Some. unfold types_of, table_addrs. split.
    - intros Hne.
      destruct (omap _ (table_keys table)) as [|e l] eqn:Ho; [done|].
      assert (e ∈ e :: l) as He by (apply elem_of_cons; by left).
      rewrite <- Ho in He. apply list_elem_of_omap in He as (bk & Hbk & Hf).
      destruct (decide ((bk.2.1.2, bk.2.2) = (a, s))) as [Heq|]; [|done].
      apply list_elem_of_fmap. exists (tagged_addr bk).
      split; [by rewrite <- Heq|].
      apply list_elem_of_fmap. by exists bk.
    - intros Hin. apply list_elem_of_fmap in Hin as (x & Hx & Hin).
      apply list_elem_of_fmap in Hin as (bk & -> & Hbk).
      intros Hnil.
      assert (bk.2.1.1 ∈ omap
                (fun bk0 : string * ecu_key =>
                   if decide ((bk0.2.1.2, bk0.2.2) = (a, s))
                   then Some bk0.2.1.1 else None) (table_keys table)) as He.
      { apply list_elem_of_omap. exists bk. split; [done|].
        by rewrite decide_True. }
      rewrite Hnil in He. by apply elem_of_nil in He. }
  by destruct (last _).
Qed.

(** X11. The dictionary of ECU types that the planner builds has unique
    keys, all of them pairs, and holds a type for exactly the pairs
    [(addr, sub_addr)] that the table names. *)
Theorem planner_ecu_types_domain (table : brand_table) :
  wf (planner table).1
  ∧ pairs_only (planner table).1
  ∧ ∀ a s, is_Some (get (planner table).1 (Pair a s))
           ↔ (a, s) ∈ untagged <$> table_addrs table.
Proof.
  split_and!; [| |apply planner_typed].
  - unfold planner. cbn [fst]. rewrite planner_steps.
    destruct (planner_ecu_types_fold (table_keys table) (mkPlan [] [] []))
      as [-> _].
    { intros brand a' s' Hin. by apply elem_of_nil in Hin. }
    apply wf_fold_set. apply NoDup_nil_2.
  - unfold planner. cbn [fst]. rewrite planner_steps.
    apply planner_ecu_types_fold.
    intros brand a' s' Hin. by apply elem_of_nil in Hin.
Qed.

Lemma elem_of_table_addrs (table : brand_table) (x : baddr_t) :
  x ∈ table_addrs table ↔
  ∃ bt c k, (x.1.1, bt) ∈ table ∧ c ∈ values bt ∧ k ∈ keys (c : fingerprint)
            ∧ x = (x.1.1, k.1.2, k.2).
Proof.
  unfold table_addrs, table_keys. rewrite list_elem_of_fmap. split.
  - intros (bk & -> & Hbk).
    apply list_elem_of_bind in Hbk as ([brand bt] & Hbk & Hbt).
    apply list_elem_of_bind in Hbk as (c & Hbk & Hc).
    apply list_elem_of_bind in Hbk as (k & Hbk & Hk).
    apply list_elem_of_singleton in Hbk as ->. simpl.
    by exists bt, c, k.
  - intros (bt & c & k & Hbt & Hc & Hk & Hx).
    exists (x.1.1, k). split; [done|].
    apply list_elem_of_bind. exists (x.1.1, bt). split; [|done].
    apply list_elem_of_bind. exists c. split; [|done].
    apply list_elem_of_bind. exists k. split; [|done].
    by apply list_elem_of_singleton.
Qed.

(** X12. An extra table replaces, brand by brand: after the merge a brand
    that the extra table names has the extra table's models only, so only
    the extra table's addresses are planned for it; the other brands keep
    theirs; and the merged table has unique brands when both tables do. *)
Theorem merge_extra_replaces_brand (versions e : brand_table)
    (Hwv : wf versions) (Hwe : wf e) :
  wf (merge_extra versions (Some e))
  ∧ (∀ brand, get (merge_extra versions (Some e)) brand
              = match get e brand with
                | Some bt => Some bt
                | None => get versions brand
                end)
  ∧ (∀ x, x ∈ table_addrs (merge_extra versions (Some e)) →
          if decide (x.1.1 ∈ keys e) then x ∈ table_addrs e
          else x ∈ table_addrs versions).
Proof.
  assert (∀ brand, get (merge_extra versions (Some e)) brand
                   = match get e brand with
                     | Some bt => Some bt
                     | None => get versions brand
                     end) as Hget.
  { intros brand. unfold merge_extra.
    by rewrite get_update, get_reverse_wf. }
  assert (wf (merge_extra versions (Some e))) as Hwm.
  { by apply wf_update. }
  split_and!; [done..|].
  intros x Hx. apply elem_of_table_addrs in Hx as (bt & c & k & Hbt & Hc & Hk & Hxk).
  apply (elem_of_get_Some _ _ _ Hwm) in Hbt. rewrite Hget in Hbt.
  destruct (decide (x.1.1 ∈ keys e)) as [Hin|Hout].
  - destruct (get e x.1.1) as [bt'|] eqn:He.
    + injection Hbt as ->. apply elem_of_table_addrs.
      exists bt, c, k. split_and!; try done. by apply get_Some_elem_of.
    + by apply get_None in He.
  - apply get_None in Hout. rewrite Hout in Hbt.
    apply elem_of_table_addrs. exists bt, c, k.
    split_and!; try done. by apply get_Some_elem_of.
Qed.

Lemma merge_extra_replaces_brand_witness :
  table_addrs (merge_extra Examples.versions (Some MoreExamples.extra_honda))
  = [("honda"%string, 0x700, None); ("toyota"%string, 0x7e0, Some 1);
     ("toyota"%string, 0x7e1, None)]
  ∧ wf (merge_extra Examples.versions (Some MoreExamples.extra_honda)).
Proof.
  split; [vm_compute; reflexivity|].
  apply (merge_extra_replaces_brand Examples.versions
           MoreExamples.extra_honda).
  - by_evaluation.
  - by_evaluation.
Defined.

(** ** Further properties of the query loop and of the result *)

Lemma brand_addrs_sublist brand (addr_chunk : list baddr_t) :
  brand_addrs brand addr_chunk `sublist_of` untagged <$> addr_chunk.
Proof.
  unfold brand_addrs. induction addr_chunk as [|[[b a] s] l IH]; [done|].
  rewrite fmap_cons. simpl. case_bool_decide.
  - by apply sublist_skip.
  - by apply sublist_cons.
Qed.

Lemma elem_of_chunks_subseteq {A : Type} (l c : list A) (n : nat) :
  c ∈ chunks l n → c ⊆ l.
Proof.
  unfold chunks. intros Hc. apply list_elem_of_fmap in Hc as (j & -> & _).
  etrans; [apply subseteq_take|apply subseteq_drop].
Qed.

Lemma keys_update_subseteq {K V : Type} `{EqDecision K} (d e : dict K V) :
  keys (update d e) ⊆ keys d ++ keys e.
Proof.
  unfold update. revert d.
  induction e as [|[k v] e IH]; intros d; simpl.
  - by rewrite app_nil_r.
  - etrans; [apply IH|]. intros x Hx.
    apply elem_of_app in Hx as [Hx|Hx].
    + destruct (decide (k ∈ keys d)) as [Hk|Hk].
      * rewrite keys_set_in in Hx by done. apply elem_of_app. by left.
      * rewrite keys_set_notin in Hx by done.
        apply elem_of_app in Hx as [Hx|Hx]; [apply elem_of_app; by left|].
        apply list_elem_of_singleton in Hx as ->.
        apply elem_of_app. right. unfold keys. simpl.
        apply elem_of_cons. by left.
    + apply elem_of_app. right. unfold keys. simpl.
      apply elem_of_cons. by right.
Qed.

Lemma fold_left_elem_invariant {A B : Type} (f : A → B → A) (P : A → Prop)
    (l : list B) (a : A) :
  P a → (∀ a x, x ∈ l → P a → P (f a x)) → P (fold_left f l a).
Proof.
  revert a. induction l as [|x l IH]; intros a Ha Hstep; [done|].
  simpl. apply IH.
  - apply Hstep; [apply elem_of_cons; by left|done].
  - intros a' y Hy. apply Hstep. apply elem_of_cons. by right.
Qed.

(** What [make_car_fw] returns, case by case. *)
Lemma make_car_fw_cases ecu_types a s v :
  make_car_fw ecu_types ((a, s), v)
  = match get ecu_types (Pair a s) with
    | None => inl (KeyError (a, s))
    | Some e =>
        if fits_car_fw (a, s)
        then inr {| ecu := e; fwVersion := v; address := a;
                    subAddress := default 0 s |}
        else inl (OutOfRange (a, s))
    end.
Proof.
  unfold make_car_fw, fits_car_fw. simpl.
  destruct (get ecu_types (Pair a s)) as [e|]; [|done].
  destruct (is_uint 32 a); [|done].
  destruct s as [z|]; simpl; [|done]. by destruct (is_uint 8 z).
Qed.

Lemma build_car_fw_succeeds ecu_types (obs : dict addr_t bytes) :
  Forall (fun k : addr_t =>
            is_Some (get ecu_types (Pair k.1 k.2)) ∧ fits_car_fw k = true)
         (keys obs) →
  ∃ car_fw, build_car_fw ecu_types obs = inr car_fw
            ∧ length car_fw = length obs.
Proof.
  unfold keys. induction obs as [|[[a s] v] obs IH]; intros Hall.
  - by exists [].
  - rewrite fmap_cons in Hall. apply Forall_cons in Hall as [[[e He] Hfit] Hall].
    destruct (IH Hall) as (car_fw & Hb & Hlen).
    simpl in He, Hfit. cbn [build_car_fw].
    rewrite make_car_fw_cases, He, Hfit, Hb.
    eexists. split; [done|]. simpl. by rewrite Hlen.
Qed.

(** X15. [build_car_fw] returns a list exactly when every observed key has
    a recorded type and fits the record's fields, and the list then holds
    one record per observation, in the dictionary's order, with the
    recorded type, the version, the address and the sub-address or 0.  When
    it fails with [KeyError] the key named is an observed one without
    recorded type; with [OutOfRange], an observed one that does not fit. *)
Theorem build_car_fw_result (ecu_types : dict tuple_key Ecu)
    (obs : dict addr_t bytes) :
  (∀ car_fw,
     build_car_fw ecu_types obs = inr car_fw ↔
     Forall2 (fun (item : addr_t * bytes) f =>
                ∃ e, get ecu_types (Pair item.1.1 item.1.2) = Some e
                     ∧ fits_car_fw item.1 = true
                     ∧ f = {| ecu := e; fwVersion := item.2;
                              address := item.1.1;
                              subAddress := default 0 item.1.2 |})
             obs car_fw)
  ∧ (∀ k, build_car_fw ecu_types obs = inl (KeyError k) →
          k ∈ keys obs ∧ get ecu_types (Pair k.1 k.2) = None)
  ∧ (∀ k, build_car_fw ecu_types obs = inl (OutOfRange k) →
          k ∈ keys obs ∧ fits_car_fw k = false).
Proof.
  unfold keys. induction obs as [|[[a s] v] obs (IH1 & IH2 & IH3)].
  - split_and!; [|done..]. intros car_fw. simpl. split.
    + intros [= <-]. constructor.
    + intros HF. by apply Forall2_nil_inv_l in HF as ->.
  - cbn [build_car_fw]. rewrite make_car_fw_cases, fmap_cons.
    destruct (get ecu_types (Pair a s)) as [e|] eqn:He.
    + destruct (fits_car_fw (a, s)) eqn:Hfit.
      * destruct (build_car_fw ecu_types obs) as [err|fs] eqn:Hb.
        -- split_and!.
           ++ intros car_fw. split; [done|]. intros HF.
              apply Forall2_cons_inv_l in HF as (f & fs & _ & HF & ->).
              by apply IH1 in HF.
           ++ intros k [= ->]. destruct (IH2 k eq_refl) as [? ?].
              split; [apply elem_of_cons; by right|done].
           ++ intros k [= ->]. destruct (IH3 k eq_refl) as [? ?].
              split; [apply elem_of_cons; by right|done].
        -- split_and!; [|done..]. intros car_fw. split.
           ++ intros [= <-]. constructor; [by exists e|]. by apply IH1.
           ++ intros HF.
              apply Forall2_cons_inv_l in HF as (f & fs' & Hf & HF & ->).
              apply IH1 in HF. injection HF as <-.
              destruct Hf as (e' & He' & _ & ->). simpl in He'.
              by replace e' with e by congruence.
      * split_and!.
        -- intros car_fw. split; [done|]. intros HF.
           apply Forall2_cons_inv_l in HF as (f & fs & Hf & _ & ->).
           destruct Hf as (e' & _ & Hfit' & _). simpl in Hfit'. congruence.
        -- done.
        -- intros k [= <-]. split; [apply elem_of_cons; by left|done].
    + split_and!.
      * intros car_fw. split; [done|]. intros HF.
        apply Forall2_cons_inv_l in HF as (f & fs & Hf & _ & ->).
        destruct Hf as (e' & He' & _). simpl in He'. congruence.
      * intros k [= <-]. split; [apply elem_of_cons; by left|done].
      * done.
Qed.

Section loop_further.
Context {World Exn : Type}.
Variable REQUESTS : list request_entry.
Variable get_data :
  World → list addr_t → list bytes → list bytes → float →
  World * (Exn + dict addr_t bytes).
Variable timeout : float.

(** A property of the state that every step of the innermost loop keeps
    holds at the end of the loop. *)
Lemma query_plan_invariant (P : @query_state World Exn → Prop)
    (plan : list (list baddr_t)) (w : World) :
  P (mkQuery w [] [] []) →
  (∀ i group addr_chunk r st,
     plan !! i = Some group → addr_chunk ∈ chunks group 128 →
     r ∈ REQUESTS → P st →
     P (query_request get_data timeout i addr_chunk st r)) →
  P (query_plan REQUESTS get_data timeout w plan).
Proof.
  intros Hinit Hstep. unfold query_plan.
  apply fold_left_elem_invariant; [done|].
  intros st [i group] Hig Hst. apply elem_of_lookup_imap in Hig.
  destruct Hig as (i' & g' & [= -> ->] & Hl).
  unfold query_group. apply fold_left_elem_invariant; [done|].
  intros st' addr_chunk Hc Hst'. unfold query_chunk.
  apply fold_left_elem_invariant; [done|].
  intros st'' r Hr Hst''. by eapply Hstep.
Qed.

Lemma get_fw_versions_result (w : World) (versions : brand_table)
    (extra : option brand_table) :
  (get_fw_versions REQUESTS get_data timeout w versions extra).2
  = build_car_fw (planner (merge_extra versions extra)).1
      (fw_versions
         (get_fw_versions REQUESTS get_data timeout w versions extra).1).
Proof.
  unfold get_fw_versions. by destruct (planner (merge_extra versions extra)).
Qed.

(** X13. Every invocation of the transport carries between 1 and 128
    addresses, all of them addresses of the plan group being processed; for
    a group after the first it carries exactly one address, which has a
    sub-address. *)
Theorem get_fw_versions_call_sizes (w : World) (versions : brand_table)
    (extra : option brand_table) :
  let st := (get_fw_versions REQUESTS get_data timeout w versions extra).1 in
  let plan := (planner (merge_extra versions extra)).2 in
  ∀ c, c ∈ trace st →
    (1 ≤ length (call_addrs c) ≤ 128)%nat
    ∧ (∃ group, plan !! call_group c = Some group
                ∧ call_addrs c ⊆ untagged <$> group)
    ∧ (call_group c ≠ 0%nat → ∃ a s, call_addrs c = [(a, Some s)]).
Proof.
  intros st plan c Hc. subst st. rewrite get_fw_versions_state in Hc.
  fold plan in Hc.
  destruct (query_plan_trace REQUESTS get_data timeout w plan)
    as (_ & _ & Hargs).
  assert (call_args c ∈ planned_calls REQUESTS timeout plan) as Hin.
  { rewrite <- Hargs. apply list_elem_of_fmap. by exists c. }
  apply elem_of_planned_calls in Hin
    as (i & group & addr_chunk & brand & request & response
        & Hl & Hch & Hr & Hne & Heq).
  unfold call_args in Heq. injection Heq as -> -> _ _ _.
  pose proof (brand_addrs_sublist brand addr_chunk) as Hsub.
  destruct (chunks_spec group 128 ltac:(lia)) as [_ Hsize].
  pose proof (proj1 (Forall_forall _ _) Hsize addr_chunk Hch) as Hlen.
  cbv beta in Hlen. split_and!.
  - destruct (brand_addrs brand addr_chunk); [done|simpl; lia].
  - apply sublist_length in Hsub. rewrite length_fmap in Hsub. lia.
  - exists group. split; [done|].
    etrans; [by apply sublist_subseteq|].
    intros x Hx. apply list_elem_of_fmap in Hx as (y & -> & Hy).
    apply list_elem_of_fmap. exists y. split; [done|].
    by apply (elem_of_chunks_subseteq group addr_chunk 128).
  - intros Hi.
    destruct (planner_plan_shape (merge_extra versions extra))
      as (parallel & singles & Hplan & _ & _ & _ & Hsing).
    fold plan in Hplan. rewrite Hplan in Hl.
    destruct i as [|i]; [done|]. simpl in Hl.
    apply list_lookup_fmap_Some in Hl as ([[b a] s] & -> & Hx).
    assert ((b, a, s) ∈ singles) as Hxs by (apply list_elem_of_lookup; eauto).
    apply Hsing in Hxs as [_ Hs]. simpl in Hs.
    destruct s as [s|]; [|done].
    change (chunks [(b, a, Some s)] 128) with [[(b, a, Some s)]] in Hch.
    apply list_elem_of_singleton in Hch as ->.
    exists a, s. unfold brand_addrs in *. simpl in *.
    by case_bool_decide.
Qed.

(** X14. When the transport never returns a version (it raises, or returns
    the empty dictionary, on every invocation), no observation is recorded
    and the result is the empty list, not an error. *)
Theorem get_fw_versions_no_answer (w : World) (versions : brand_table)
    (extra : option brand_table) (Hquiet : never_answers get_data) :
  fw_versions (get_fw_versions REQUESTS get_data timeout w versions extra).1
  = []
  ∧ (get_fw_versions REQUESTS get_data timeout w versions extra).2 = inr [].
Proof.
  assert (fw_versions (query_plan REQUESTS get_data timeout w
                         (planner (merge_extra versions extra)).2) = [])
    as Hfw.
  { apply (query_plan_invariant (fun st => fw_versions st = [])); [done|].
    intros i group addr_chunk [[brand request] response] st _ _ _ Hst.
    unfold query_request.
    destruct (brand_addrs brand addr_chunk) as [|a addrs]; [done|].
    destruct (Hquiet (world st) (a :: addrs) request response
                (if bool_decide (i = 0%nat)
                 then PrimFloat.mul 2%float timeout else timeout))
      as [Hres|[e Hres]];
      destruct (get_data _ _ _ _ _) as [w' res]; simpl in Hres; subst res;
      simpl; by rewrite ?Hst. }
  rewrite <- get_fw_versions_state in Hfw. split; [done|].
  by rewrite get_fw_versions_result, Hfw.
Qed.

(** X16. When the transport answers only for addresses it was asked about
    and every address of the table fits the record's fields,
    [get_fw_versions] returns a list: no key lookup fails.  The list has one
    record per observed key, and every observed key is a pair of the
    table. *)
Theorem get_fw_versions_returns (w : World) (versions : brand_table)
    (extra : option brand_table)
    (Hasked : answers_asked get_data)
    (Hfit : Forall (fun x => fits_car_fw (untagged x) = true)
                   (table_addrs (merge_extra versions extra))) :
  let st := (get_fw_versions REQUESTS get_data timeout w versions extra).1 in
  keys (fw_versions st)
    ⊆ untagged <$> table_addrs (merge_extra versions extra)
  ∧ ∃ car_fw,
      (get_fw_versions REQUESTS get_data timeout w versions extra).2
      = inr car_fw
      ∧ length car_fw = length (fw_versions st).
Proof.
  intros st. subst st. rewrite get_fw_versions_state.
  set (table := merge_extra versions extra) in *.
  assert (∀ i group, (planner table).2 !! i = Some group →
                     group ⊆ table_addrs table) as Hgroups.
  { intros i group Hl.
    destruct (planner_plan_shape table)
      as (parallel & singles & Hplan & _ & _ & Hpar & Hsing).
    rewrite Hplan in Hl. destruct i as [|i]; simpl in Hl.
    - injection Hl as <-. intros x Hx. by apply Hpar in Hx as [? _].
    - apply list_lookup_fmap_Some in Hl as (y & -> & Hy).
      intros x Hx. apply list_elem_of_singleton in Hx as ->.
      assert (y ∈ singles) as Hys by (apply list_elem_of_lookup; eauto).
      by apply Hsing in Hys as [? _]. }
  assert (keys (fw_versions (query_plan REQUESTS get_data timeout w
                               (planner table).2))
            ⊆ untagged <$> table_addrs table) as Hkeys.
  { apply (query_plan_invariant
             (fun st => keys (fw_versions st) ⊆ untagged <$> table_addrs table)).
    { apply list_subseteq_nil. }
    intros i group addr_chunk [[brand request] response] st Hl Hch _ Hst.
    unfold query_request.
    destruct (brand_addrs brand addr_chunk) as [|a addrs] eqn:Hb; [done|].
    destruct (get_data _ _ _ _ _) as [w' [e|data]] eqn:Hq; [done|].
    simpl. etrans; [apply keys_update_subseteq|].
    apply list_subseteq_app_iff_l. split; [done|].
    etrans; [by eapply Hasked|]. rewrite <- Hb.
    etrans; [apply sublist_subseteq, brand_addrs_sublist|].
    intros x Hx. apply list_elem_of_fmap in Hx as (y & -> & Hy).
    apply list_elem_of_fmap. exists y. split; [done|].
    apply (Hgroups i group Hl).
    by apply (elem_of_chunks_subseteq group addr_chunk 128). }
  split; [done|].
  rewrite get_fw_versions_result, get_fw_versions_state. fold table.
  apply build_car_fw_succeeds. apply Forall_forall. intros [a s] Hk.
  apply Hkeys in Hk. split.
  - by apply planner_typed.
  - apply list_elem_of_fmap in Hk as (x & -> & Hx).
    by apply (proj1 (Forall_forall _ _) Hfit).
Qed.

(** X17. Matching the list that [get_fw_versions] returns is matching its
    observations: when no observed key has sub-address 0, the candidates
    that [match_fw_to_car] finds from the returned records are those that
    the matcher finds on the observation dictionary itself. *)
Theorem match_of_get_fw_versions (TOYOTA : ToyotaCAR)
    (FW_VERSIONS : fw_table) (w : World) (versions : brand_table)
    (extra : option brand_table) (car_fw : list CarFw)
    (Hres : (get_fw_versions REQUESTS get_data timeout w versions extra).2
            = inr car_fw)
    (Hzero : Forall (fun k : addr_t => k.2 ≠ Some 0)
               (keys (fw_versions
                        (get_fw_versions REQUESTS get_data timeout w
                           versions extra).1))) :
  match_fw_to_car TOYOTA FW_VERSIONS car_fw
  = match_observations TOYOTA FW_VERSIONS
      (fw_versions
         (get_fw_versions REQUESTS get_data timeout w versions extra).1).
Proof.
  set (obs := fw_versions (get_fw_versions REQUESTS get_data timeout w
                             versions extra).1) in *.
  assert (wf obs) as Hwf.
  { subst obs. rewrite get_fw_versions_state.
    destruct (query_plan_trace REQUESTS get_data timeout w
                (planner (merge_extra versions extra)).2) as (-> & _ & _).
    apply wf_fold_update. apply NoDup_nil_2. }
  assert (build_car_fw (planner (merge_extra versions extra)).1 obs
          = inr car_fw) as Hb.
  { subst obs. by rewrite <- get_fw_versions_result. }
  apply build_car_fw_inr in Hb.
  assert (∀ a, (a, Some 0) ∉ keys obs) as Hz.
  { intros a Hin. by apply (proj1 (Forall_forall _ _) Hzero (a, Some 0)). }
  unfold match_fw_to_car, match_observations, build_fw_versions_dict.
  cbn zeta.
  rewrite (build_fw_versions_dict_round_trip _ _ _ _ Hz Hb).
  rewrite (collect_invalid_ext TOYOTA FW_VERSIONS (update [] obs) obs); [done|].
  apply Forall_forall. intros m _. apply Forall_forall. intros e _.
  rewrite get_update, get_reverse_wf by done. simpl.
  by destruct (get obs _).
Qed.
End loop_further.

Lemma get_fw_versions_no_answer_witness :
  (get_fw_versions Examples.REQUESTS MoreExamples.dead_transport
     0.125%float 0%nat Examples.versions None).2 = inr [].
Proof.
  apply (get_fw_versions_no_answer Examples.REQUESTS
           MoreExamples.dead_transport 0.125%float 0%nat Examples.versions
           None).
  intros w addrs request response t. right. by exists "timeout"%string.
Defined.

Lemma get_fw_versions_returns_witness :
  ∃ car_fw, Examples.run.2 = inr car_fw
            ∧ length car_fw = length (fw_versions Examples.run.1).
Proof.
  apply (get_fw_versions_returns Examples.REQUESTS Examples.transport
           0.125%float 0%nat Examples.versions None).
  - intros w addrs request response t w' data Hq.
    unfold Examples.transport in Hq.
    destruct (decide (request = _)); [done|].
    injection Hq as _ <-. unfold keys.
    rewrite <- list_fmap_compose. intros x Hx.
    apply list_elem_of_fmap in Hx as (y & -> & Hy). done.
  - by_evaluation.
Defined.

Lemma match_of_get_fw_versions_witness :
  match_fw_to_car Examples.TOYOTA Examples.FW_VERSIONS
    [{| ecu := vsa; fwVersion := [3]; address := 0x7e1; subAddress := 0 |};
     {| ecu := esp; fwVersion := [7]; address := 0x7e0; subAddress := 1 |}]
  = match_observations Examples.TOYOTA Examples.FW_VERSIONS
      (fw_versions Examples.run.1).
Proof.
  apply (match_of_get_fw_versions Examples.REQUESTS Examples.transport
           0.125%float Examples.TOYOTA Examples.FW_VERSIONS 0%nat
           Examples.versions None).
  - vm_compute. reflexivity.
  - by_evaluation.
Defined.

(** X18. When all the keys of the table that carry a pair give it one and
    the same ECU type, that type is the one recorded for the pair: the first
    key's type and the last key's coincide. *)
Theorem planner_ecu_types_consistent (table : brand_table) (a : Z)
    (s : option Z) (e0 : Ecu)
    (Hcons : Forall (eq e0) (types_of (table_keys table) (a, s))) :
  get (planner table).1 (Pair a s) = head (types_of (table_keys table) (a, s))
  ∧ ((a, s) ∈ untagged <$> table_addrs table →
     get (planner table).1 (Pair a s) = Some e0).
Proof.
  assert (get (planner table).1 (Pair a s)
          = last (types_of (table_keys table) (a, s))) as Hlast.
  { unfold planner. cbn [fst]. rewrite planner_steps.
    destruct (planner_ecu_types_fold (table_keys table) (mkPlan [] [] []))
      as [-> _].
    { intros brand a' s' Hin. by apply elem_of_nil in Hin. }
    rewrite get_ecu_types_fold. simpl. by destruct (last _). }
  assert (∀ l : list Ecu, Forall (eq e0) l →
            last l = head l ∧ (l ≠ [] → last l = Some e0)) as Hsame.
  { intros l Hl. induction Hl as [|e l <- Hl [IH1 IH2]]; [done|].
    destruct l as [|e' l]; [done|].
    change (last (e0 :: e' :: l)) with (last (e' :: l)).
    rewrite IH2 by done. done. }
  destruct (Hsame _ Hcons) as [Hhead Hsome]. split.
  - by rewrite Hlast.
  - intros Hin. rewrite Hlast. apply Hsome.
    apply planner_typed in Hin. rewrite Hlast in Hin.
    by apply last_is_Some.
Qed.

Lemma planner_ecu_types_consistent_witness :
  get (planner MoreExamples.consistent).1 (Pair 0x7b0 None)
  = head (types_of (table_keys MoreExamples.consistent) (0x7b0, None))
  ∧ ((0x7b0, None) ∈ untagged <$> table_addrs MoreExamples.consistent →
     get (planner MoreExamples.consistent).1 (Pair 0x7b0 None) = Some esp).
Proof.
  apply (planner_ecu_types_consistent MoreExamples.consistent 0x7b0 None esp).
  by_evaluation.
Defined.

Lemma get_fw_versions_call_sizes_witness :
  (1 ≤ length (call_addrs Examples.call4) ≤ 128)%nat
  ∧ (∃ group, (planner (merge_extra Examples.versions None)).2
                !! call_group Examples.call4 = Some group
              ∧ call_addrs Examples.call4 ⊆ untagged <$> group)
  ∧ (call_group Examples.call4 ≠ 0%nat →
     ∃ a s, call_addrs Examples.call4 = [(a, Some s)]).
Proof.
  apply (get_fw_versions_call_sizes Examples.REQUESTS Examples.transport
           0.125%float 0%nat Examples.versions None Examples.call4).
  apply (list_elem_of_lookup_2 _ 4%nat). vm_compute. reflexivity.
Defined.
